(** * Walmart-Agent: the chat front end and its orchestration contract

    A shallow embedding of the TypeScript sources
    - [frontend/src/stores/authStore.ts]   (module [AuthStore]),
    - [frontend/src/services/api.ts]       (module [Api]),
    - [frontend/src/pages/ChatInterface.tsx] (module [Chat]),
    together with models of the routing, decomposition and tool-bridge
    components, which the front end only talks to.

    Part I holds the definitions, Part II the theorems. *)

From stdpp Require Import gmap strings list fin_maps.
From Stdlib Require Import QArith.

Set Warnings "-register-all".

Close Scope Q_scope.

Open Scope string_scope.
Open Scope list_scope.

(* ===================================================================== *)
(** * Part I: the embedding                                               *)
(* ===================================================================== *)

(** ** JavaScript strings and values

    A JavaScript string is a sequence of UTF-16 code units; the operations
    the sources use ([trim], [split], [startsWith], [slice], [===]) all work
    on code units. *)

Module JS.

Definition char16 := N.
Definition jsstr := list N.

(** A string literal of the source, as code units (ASCII literals only). *)
Definition lit (s : string) : jsstr :=
  map Ascii.N_of_ascii (String.list_ascii_of_string s).

(** ECMAScript [WhiteSpace] and [LineTerminator] code points, the set that
    [String.prototype.trim] strips. *)
Definition is_whitespace (c : N) : bool :=
  ((c =? 0x09) || (c =? 0x0A) || (c =? 0x0B) || (c =? 0x0C) || (c =? 0x0D)
   || (c =? 0x20) || (c =? 0xA0) || (c =? 0x1680)
   || ((0x2000 <=? c) && (c <=? 0x200A))
   || (c =? 0x2028) || (c =? 0x2029) || (c =? 0x202F) || (c =? 0x205F)
   || (c =? 0x3000) || (c =? 0xFEFF))%N.

Fixpoint trimStart (s : jsstr) : jsstr :=
  match s with
  | [] => []
  | c :: s' => if is_whitespace c then trimStart s' else s
  end.

Definition trimEnd (s : jsstr) : jsstr := rev (trimStart (rev s)).

Definition trim (s : jsstr) : jsstr := trimEnd (trimStart s).

(** Truthiness of a string: the empty string is the only falsy one. *)
Definition truthy_str (s : jsstr) : bool :=
  match s with [] => false | _ => true end.

Definition truthy_string (s : string) : bool :=
  match s with EmptyString => false | _ => true end.

(** Truthiness of an optional ([undefined] / [null]) string. *)
Definition truthy_opt (o : option string) : bool :=
  match o with Some s => truthy_string s | None => false end.

Fixpoint eqb_str (a b : jsstr) : bool :=
  match a, b with
  | [], [] => true
  | x :: a', y :: b' => (x =? y)%N && eqb_str a' b'
  | _, _ => false
  end.

(** [line.startsWith(p)] *)
Fixpoint startsWith (p s : jsstr) : bool :=
  match p, s with
  | [], _ => true
  | x :: p', y :: s' => (x =? y)%N && startsWith p' s'
  | _ :: _, [] => false
  end.

(** [s.slice(n)] for a non-negative [n]. *)
Definition slice (n : nat) (s : jsstr) : jsstr := drop n s.

(** [s.split('\n')]: the pieces between line feeds; never empty. *)
Fixpoint split_nl (s : jsstr) : list jsstr :=
  match s with
  | [] => [[]]
  | c :: s' =>
      if (c =? 0x0A)%N then [] :: split_nl s'
      else match split_nl s' with
           | [] => [[c]]
           | l :: ls => (c :: l) :: ls
           end
  end.

(** [arr.pop()]: the array without its last element, and that element
    ([undefined], here [None], on an empty array). *)
Definition pop {A} (l : list A) : list A * option A :=
  (removelast l, last l).

(** The values [JSON.parse] produces. An object is the list of its own
    properties, each key once; numbers are kept as rationals. *)
Inductive json : Type :=
| JNull
| JBool (b : bool)
| JNum (q : Q)
| JStr (s : jsstr)
| JArr (items : list json)
| JObj (fields : list (jsstr * json)).

(** [ToBoolean] on those values. *)
Definition truthy (v : json) : bool :=
  match v with
  | JNull => false
  | JBool b => b
  | JNum q => negb (Qnum q =? 0)%Z
  | JStr s => truthy_str s
  | JArr _ | JObj _ => true
  end.

(** Own-property lookup in a parsed object. *)
Fixpoint obj_get (k : jsstr) (fields : list (jsstr * json)) : option json :=
  match fields with
  | [] => None
  | (k', v) :: rest => if eqb_str k k' then Some v else obj_get k rest
  end.

(** [JSON.parse] is the platform's: [None] stands for a thrown
    [SyntaxError]. *)
Class JSONParser := JSON_parse : jsstr → option json.

End JS.

Import JS.

(** ** The authentication store ([stores/authStore.ts])

    A zustand store wrapped in the [persist] middleware: every [set]
    writes the partialized state under the key ['auth-storage'] of
    [localStorage]. *)

Module AuthStore.

Record User := {
  id : string;
  username : string;
  email : string;
  fullName : string;
  role : string;
  department : option string;
  isActive : bool;
  isSuperuser : bool
}.

Record AuthState := {
  user : option User;
  token : option string;
  refreshToken : option string;
  isAuthenticated : bool;
  isLoading : bool
}.

Definition initialState : AuthState :=
  {| user := None; token := None; refreshToken := None;
     isAuthenticated := false; isLoading := false |}.

(** What [partialize] keeps of the state. *)
Record Persisted := {
  p_token : option string;
  p_refreshToken : option string;
  p_user : option User;
  p_isAuthenticated : bool
}.

Definition partialize (s : AuthState) : Persisted :=
  {| p_token := token s; p_refreshToken := refreshToken s;
     p_user := user s; p_isAuthenticated := isAuthenticated s |}.

(** An entry of [localStorage]: a persisted auth state, or any other text. *)
Inductive StorageItem :=
| AuthEntry (p : Persisted)
| OtherEntry (text : string).

(** The part of the browser the store and the API service act on. *)
Record Browser := {
  auth : AuthState;
  localStorage : gmap string StorageItem;
  location_href : string;
  toasts : list string
}.

Definition storage_name : string := "auth-storage".

(** [set(partial)] as seen through [persist]: update, then [setItem]. *)
Definition set (f : AuthState → AuthState) (b : Browser) : Browser :=
  let s := f (auth b) in
  {| auth := s;
     localStorage := <[storage_name := AuthEntry (partialize s)]> (localStorage b);
     location_href := location_href b;
     toasts := toasts b |}.

Definition removeItem (k : string) (b : Browser) : Browser :=
  {| auth := auth b;
     localStorage := delete k (localStorage b);
     location_href := location_href b;
     toasts := toasts b |}.

Definition login (tok rtok : string) (u : User) : Browser → Browser :=
  set (λ _, {| token := Some tok; refreshToken := Some rtok; user := Some u;
               isAuthenticated := true; isLoading := false |}).

Definition logout (b : Browser) : Browser :=
  removeItem "auth-storage" (set (λ _, initialState) b).

Definition setLoading (loading : bool) : Browser → Browser :=
  set (λ s, {| user := user s; token := token s; refreshToken := refreshToken s;
               isAuthenticated := isAuthenticated s; isLoading := loading |}).

Definition clearAuth : Browser → Browser :=
  set (λ _, initialState).

End AuthStore.

(** ** The API service ([services/api.ts]) *)

Module Api.

Import AuthStore.

(** *** Interceptors of the axios instance *)

(** Request interceptor: [if (token) config.headers.Authorization = ...];
    the request id is made from the clock and a random number, here [rid]. *)
Definition request_interceptor (rid : string) (b : Browser)
    (headers : gmap string string) : gmap string string :=
  let headers1 :=
    match token (auth b) with
    | Some t => if truthy_string t
                then <["Authorization" := "Bearer " +:+ t]> headers
                else headers
    | None => headers
    end in
  <["X-Request-ID" := rid]> headers1.

Record ErrorData := {
  detail : option string;
  message : option string
}.

(** An axios error: the response (status and body) if one came back,
    and whether a request had been made at all. *)
Record AxiosError := {
  response : option (N * option ErrorData);
  request : bool
}.

Definition message_error (text : string) (b : Browser) : Browser :=
  {| auth := auth b; localStorage := localStorage b;
     location_href := location_href b; toasts := toasts b ++ [text] |}.

Definition set_location_href (href : string) (b : Browser) : Browser :=
  {| auth := auth b; localStorage := localStorage b;
     location_href := href; toasts := toasts b |}.

(** [data?.detail || data?.message || '请求失败，请稍后重试'] *)
Definition default_error_text (data : option ErrorData) : string :=
  match data with
  | Some d =>
      if truthy_opt (detail d) then default "" (detail d)
      else if truthy_opt (message d) then default "" (message d)
      else "请求失败，请稍后重试"
  | None => "请求失败，请稍后重试"
  end.

(** Response interceptor, error branch. The promise is rejected in every
    case; what is modelled is the effect on the browser. *)
Definition response_error_interceptor (error : AxiosError) (b : Browser) : Browser :=
  match response error with
  | Some (status, data) =>
      if (status =? 401)%N then
        set_location_href "/login" (logout (message_error "登录已过期，请重新登录" b))
      else if (status =? 403)%N then message_error "权限不足，无法访问该资源" b
      else if (status =? 404)%N then message_error "请求的资源不存在" b
      else if (status =? 429)%N then message_error "请求过于频繁，请稍后重试" b
      else if (status =? 500)%N then message_error "服务器内部错误，请稍后重试" b
      else if (status =? 502)%N || (status =? 503)%N || (status =? 504)%N
      then message_error "服务暂时不可用，请稍后重试" b
      else message_error (default_error_text data) b
  | None =>
      if request error then message_error "网络连接失败，请检查网络设置" b
      else message_error "请求发生未知错误" b
  end.

(** [stream] builds its own header: the bearer token, or the empty string. *)
Definition stream_authorization (b : Browser) : string :=
  match token (auth b) with
  | Some t => if truthy_string t then "Bearer " +:+ t else ""
  | None => ""
  end.

(** *** [new TextDecoder()]: the streaming UTF-8 decoder

    The decoder of the Encoding standard, one byte at a time; its state is
    kept between calls of [decode(value, { stream: true })]. Malformed
    input yields U+FFFD, a leading byte order mark is dropped, and code
    points above U+FFFF come out as surrogate pairs. *)

Record Utf8 := {
  code_point : N;
  bytes_seen : N;
  bytes_needed : N;
  lower_boundary : N;
  upper_boundary : N
}.

Definition utf8_init : Utf8 :=
  {| code_point := 0; bytes_seen := 0; bytes_needed := 0;
     lower_boundary := 0x80; upper_boundary := 0xBF |}.

Inductive HandlerResult :=
| Continue
| Emit (cp : N)
| DecodeError
| DecodeErrorRestore.  (* error, and the byte is put back *)

Definition in_range (lo hi b : N) : bool := ((lo <=? b) && (b <=? hi))%N.

Definition utf8_handler (st : Utf8) (b : N) : Utf8 * HandlerResult :=
  if (bytes_needed st =? 0)%N then
    if in_range 0x00 0x7F b then (st, Emit b)
    else if in_range 0xC2 0xDF b then
      ({| code_point := N.land b 0x1F; bytes_seen := bytes_seen st;
          bytes_needed := 1;
          lower_boundary := lower_boundary st;
          upper_boundary := upper_boundary st |}, Continue)
    else if in_range 0xE0 0xEF b then
      ({| code_point := N.land b 0xF; bytes_seen := bytes_seen st;
          bytes_needed := 2;
          lower_boundary := if (b =? 0xE0)%N then 0xA0 else lower_boundary st;
          upper_boundary := if (b =? 0xED)%N then 0x9F else upper_boundary st |},
       Continue)
    else if in_range 0xF0 0xF4 b then
      ({| code_point := N.land b 0x7; bytes_seen := bytes_seen st;
          bytes_needed := 3;
          lower_boundary := if (b =? 0xF0)%N then 0x90 else lower_boundary st;
          upper_boundary := if (b =? 0xF4)%N then 0x8F else upper_boundary st |},
       Continue)
    else (st, DecodeError)
  else if negb (in_range (lower_boundary st) (upper_boundary st) b) then
    (utf8_init, DecodeErrorRestore)
  else
    let cp := N.lor (N.shiftl (code_point st) 6) (N.land b 0x3F) in
    let seen := (bytes_seen st + 1)%N in
    if negb (seen =? bytes_needed st)%N then
      ({| code_point := cp; bytes_seen := seen;
          bytes_needed := bytes_needed st;
          lower_boundary := 0x80; upper_boundary := 0xBF |}, Continue)
    else (utf8_init, Emit cp).

(** The code points one byte gives rise to. A restored byte is handled
    again, by a decoder that expects a lead byte. *)
Definition utf8_step (st : Utf8) (b : N) : Utf8 * list N :=
  match utf8_handler st b with
  | (st', Continue) => (st', [])
  | (st', Emit cp) => (st', [cp])
  | (st', DecodeError) => (st', [0xFFFD%N])
  | (st', DecodeErrorRestore) =>
      match utf8_handler st' b with
      | (st'', Continue) => (st'', [0xFFFD%N])
      | (st'', Emit cp) => (st'', [0xFFFD%N; cp])
      | (st'', _) => (st'', [0xFFFD%N; 0xFFFD%N])
      end
  end.

(** A code point as UTF-16 code units. *)
Definition utf16 (cp : N) : jsstr :=
  if (cp <? 0x10000)%N then [cp]
  else let c := (cp - 0x10000)%N in
       [(0xD800 + N.shiftr c 10)%N; (0xDC00 + N.land c 0x3FF)%N].

Record TextDecoder := {
  decoder : Utf8;
  BOM_seen : bool
}.

Definition new_TextDecoder : TextDecoder :=
  {| decoder := utf8_init; BOM_seen := false |}.

(** Serialising the decoded code points: the first one is dropped if it is
    a byte order mark. *)
Fixpoint serialize (seen : bool) (cps : list N) : bool * jsstr :=
  match cps with
  | [] => (seen, [])
  | cp :: rest =>
      if negb seen && (cp =? 0xFEFF)%N then serialize true rest
      else let '(seen', out) := serialize true rest in (seen', utf16 cp ++ out)
  end.

Definition decode_byte (d : TextDecoder) (b : Byte.byte) : TextDecoder * jsstr :=
  let '(st, cps) := utf8_step (decoder d) (Byte.to_N b) in
  let '(seen, out) := serialize (BOM_seen d) cps in
  ({| decoder := st; BOM_seen := seen |}, out).

(** [decoder.decode(value, { stream: true })] *)
Fixpoint decode (d : TextDecoder) (value : list Byte.byte) : TextDecoder * jsstr :=
  match value with
  | [] => (d, [])
  | b :: rest =>
      let '(d1, out1) := decode_byte d b in
      let '(d2, out2) := decode d1 rest in
      (d2, out1 ++ out2)
  end.

(** *** [ApiService.stream] *)

Section Stream.
Context `{JSONParser}.

(** What reaches [onMessage] for one payload:
    [JSON.parse(data)] then [parsed.content || data], and [data] itself
    when parsing, or reading [content] off [null], throws. *)
Definition chunk_of (data : jsstr) : json :=
  match JSON_parse data with
  | Some (JObj fields) =>
      match obj_get (lit "content") fields with
      | Some v => if truthy v then v else JStr data
      | None => JStr data
      end
  | Some _ => JStr data
  | None => JStr data
  end.

(** The [for (const line of lines)] loop. [onMessage] is a consumer that
    returns normally; it is modelled by the list of its arguments, in call
    order. The flag tells that ['[DONE]'] was met and the function
    returned. *)
Fixpoint for_lines (lines : list jsstr) (calls : list json) : list json * bool :=
  match lines with
  | [] => (calls, false)
  | line :: rest =>
      if startsWith (lit "data: ") line then
        let data := slice 6 line in
        if eqb_str data (lit "[DONE]") then (calls, true)
        else for_lines rest (calls ++ [chunk_of data])
      else for_lines rest calls
  end.

(** One result of [reader.read()] before [done]. *)
Inductive Read :=
| Value (value : list Byte.byte)
| ReadError (e : string).

Inductive Error :=
| HttpError (status : N) (statusText : string)
| NotReadable
| Thrown (e : string).

Inductive Settled :=
| Resolved
| Rejected (e : Error).

Record StreamRun := {
  onMessage_calls : list json;
  settled : Settled
}.

(** The [while (true)] loop over the reads; after the last element of
    [reads] the reader reports [done]. *)
Fixpoint read_loop (reads : list Read) (d : TextDecoder) (buffer : jsstr)
    (calls : list json) : StreamRun :=
  match reads with
  | [] => {| onMessage_calls := calls; settled := Resolved |}
  | ReadError e :: _ => {| onMessage_calls := calls; settled := Rejected (Thrown e) |}
  | Value value :: rest =>
      let '(d', text) := decode d value in
      let buffer := buffer ++ text in
      let '(lines, popped) := pop (split_nl buffer) in
      let buffer := default [] popped in
      let '(calls', finished) := for_lines lines calls in
      if finished then {| onMessage_calls := calls'; settled := Resolved |}
      else read_loop rest d' buffer calls'
  end.

Record Response := {
  ok : bool;
  status : N;
  statusText : string;
  body : option (list Read)
}.

Inductive FetchResult :=
| Fulfilled (r : Response)
| Failed (e : string).

Definition stream (res : FetchResult) : StreamRun :=
  match res with
  | Failed e => {| onMessage_calls := []; settled := Rejected (Thrown e) |}
  | Fulfilled r =>
      if negb (ok r) then
        {| onMessage_calls := [];
           settled := Rejected (HttpError (status r) (statusText r)) |}
      else match body r with
           | None => {| onMessage_calls := []; settled := Rejected NotReadable |}
           | Some reads => read_loop reads new_TextDecoder [] []
           end
  end.

End Stream.

End Api.

(** ** The chat page ([pages/ChatInterface.tsx])

    The component's state is the tuple of its [useState] cells; each
    handler is a function from the state to the new state and the list of
    effects it has on the outside (socket, HTTP, toasts, query cache). *)

Module Chat.

Inductive Role := user | assistant.

Record ChatMessage := {
  id : string;
  role : Role;
  content : jsstr;
  timestamp : string;
  agent_id : option string;
  agent_name : option string;
  metadata : option json
}.

Record Conversation := {
  conversation_id : string;
  conv_messages : list ChatMessage;
  total_messages : nat;
  created_at : string;
  updated_at : string
}.

Record Agent := {
  agent_ident : string;   (* [id] *)
  name : string;
  description : string;
  is_active : bool
}.

Inductive ReadyState := CONNECTING | OPEN | CLOSING | CLOSED.

Record WebSocket := {
  url : string;
  readyState : ReadyState
}.

Record State := {
  currentMessage : jsstr;
  selectedAgent : option string;
  currentConversationId : option string;
  messages : list ChatMessage;
  isTyping : bool;
  ws : option WebSocket
}.

(** The [useState] setters. [setMessages] takes an updater, as every call
    of it in an asynchronous handler does. *)
Definition setCurrentMessage (v : jsstr) (st : State) : State :=
  {| currentMessage := v; selectedAgent := selectedAgent st;
     currentConversationId := currentConversationId st;
     messages := messages st; isTyping := isTyping st; ws := ws st |}.

Definition setSelectedAgent (v : option string) (st : State) : State :=
  {| currentMessage := currentMessage st; selectedAgent := v;
     currentConversationId := currentConversationId st;
     messages := messages st; isTyping := isTyping st; ws := ws st |}.

Definition setCurrentConversationId (v : option string) (st : State) : State :=
  {| currentMessage := currentMessage st; selectedAgent := selectedAgent st;
     currentConversationId := v;
     messages := messages st; isTyping := isTyping st; ws := ws st |}.

Definition setMessages (f : list ChatMessage → list ChatMessage) (st : State) : State :=
  {| currentMessage := currentMessage st; selectedAgent := selectedAgent st;
     currentConversationId := currentConversationId st;
     messages := f (messages st); isTyping := isTyping st; ws := ws st |}.

Definition setIsTyping (v : bool) (st : State) : State :=
  {| currentMessage := currentMessage st; selectedAgent := selectedAgent st;
     currentConversationId := currentConversationId st;
     messages := messages st; isTyping := v; ws := ws st |}.

Definition setWs (v : option WebSocket) (st : State) : State :=
  {| currentMessage := currentMessage st; selectedAgent := selectedAgent st;
     currentConversationId := currentConversationId st;
     messages := messages st; isTyping := isTyping st; ws := v |}.

Definition initial : State :=
  {| currentMessage := []; selectedAgent := None; currentConversationId := None;
     messages := []; isTyping := false; ws := None |}.

(** The request both transports carry. *)
Record MessageData := {
  message : jsstr;
  md_conversation_id : option string;
  preferred_agent_id : option string
}.

Record Frame := {
  type : string;
  data : MessageData
}.

Inductive Effect :=
| WsSend (frame : Frame)                          (* [ws.send(JSON.stringify(frame))] *)
| HttpPost (path : string) (body : MessageData)   (* [api.post(path, body)] *)
| MessageError (text : string)                    (* [message.error(text)] *)
| InvalidateQueries (key : string).

(** The clock, read as [Date.now().toString()] and
    [new Date().toISOString()]. *)
Record Clock := {
  now_toString : string;
  now_toISOString : string
}.

(** [ws && ws.readyState === WebSocket.OPEN] *)
Definition ws_open (w : option WebSocket) : bool :=
  match w with
  | Some s => match readyState s with OPEN => true | _ => false end
  | None => false
  end.

Definition userMessage (clock : Clock) (st : State) : ChatMessage :=
  {| id := now_toString clock;
     role := user;
     content := trim (currentMessage st);
     timestamp := now_toISOString clock;
     agent_id := None; agent_name := None; metadata := None |}.

Definition messageData (st : State) : MessageData :=
  {| message := trim (currentMessage st);
     md_conversation_id := currentConversationId st;
     preferred_agent_id := selectedAgent st |}.

Definition handleSendMessage (clock : Clock) (st : State) : State * list Effect :=
  if negb (truthy_str (trim (currentMessage st))) then (st, [])
  else
    let st1 := setMessages (λ prev, prev ++ [userMessage clock st]) st in
    let st2 := setIsTyping true st1 in
    let sent :=
      if ws_open (ws st)
      then [WsSend {| type := "chat"; data := messageData st |}]
      else [HttpPost "/chat/message" (messageData st)] in
    (setCurrentMessage [] st2, sent).

(** The body of a successful reply to [POST /chat/message]. *)
Record ChatResponse := {
  r_id : string;
  r_message : jsstr;
  r_timestamp : string;
  r_agent_id : option string;
  r_agent_name : option string;
  r_metadata : option json;
  r_conversation_id : option string
}.

Definition newMessage_of_response (response : ChatResponse) : ChatMessage :=
  {| id := r_id response;
     role := assistant;
     content := r_message response;
     timestamp := r_timestamp response;
     agent_id := r_agent_id response;
     agent_name := r_agent_name response;
     metadata := r_metadata response |}.

Definition onSuccess (response : ChatResponse) (st : State) : State * list Effect :=
  let st1 := setMessages (λ prev, prev ++ [newMessage_of_response response]) st in
  let st2 := setCurrentConversationId (r_conversation_id response) st1 in
  (setIsTyping false st2, [InvalidateQueries "conversations"]).

Definition onError (error_message : string) (st : State) : State * list Effect :=
  (setIsTyping false st, [MessageError ("发送消息失败: " +:+ error_message)]).

(** A parsed WebSocket event, [JSON.parse(event.data)]. *)
Record EventData := {
  e_message_id : option string;
  e_message : jsstr;
  e_agent_id : option string;
  e_agent_name : option string;
  e_metadata : option json;
  e_status : option string
}.

Record WsEvent := {
  e_type : string;
  e_data : EventData;
  e_timestamp : string
}.

Definition newMessage_of_event (clock : Clock) (ev : WsEvent) : ChatMessage :=
  {| id := if truthy_opt (e_message_id (e_data ev))
           then default "" (e_message_id (e_data ev))
           else now_toString clock;
     role := assistant;
     content := e_message (e_data ev);
     timestamp := e_timestamp ev;
     agent_id := e_agent_id (e_data ev);
     agent_name := e_agent_name (e_data ev);
     metadata := e_metadata (e_data ev) |}.

Definition onmessage (clock : Clock) (ev : WsEvent) (st : State) : State :=
  if String.eqb (e_type ev) "message" then
    setIsTyping false (setMessages (λ prev, prev ++ [newMessage_of_event clock ev]) st)
  else if String.eqb (e_type ev) "status"
          && bool_decide (e_status (e_data ev) = Some "processing")
  then setIsTyping true st
  else st.

Definition onopen (websocket : WebSocket) : State → State := setWs (Some websocket).
Definition onclose : State → State := setWs None.

Definition loadConversation (conversation : Conversation) (st : State) : State :=
  setCurrentConversationId (Some (conversation_id conversation))
    (setMessages (λ _, conv_messages conversation) st).

Definition clearCurrentChat (st : State) : State :=
  setCurrentConversationId None (setMessages (λ _, []) st).

(** The agent picker: one option per agent, disabled when the agent is
    not active; a disabled option cannot be chosen. *)
Record SelectOption := {
  value : string;
  disabled : bool
}.

Definition agent_options (agents : list Agent) : list SelectOption :=
  map (λ agent, {| value := agent_ident agent;
                   disabled := negb (is_active agent) |}) agents.

Definition selectable (agents : list Agent) : list string :=
  value <$> filter (λ o, disabled o = false) (agent_options agents).

(** [disabled={!currentMessage.trim() || isTyping}] on the send button. *)
Definition send_disabled (st : State) : bool :=
  negb (truthy_str (trim (currentMessage st))) || isTyping st.

(** Everything that can happen to the page. *)
Inductive Event :=
| Typed (text : jsstr)                        (* [onChange] of the text area *)
| Picked (agent : option string)              (* [onChange] of the picker *)
| Send (clock : Clock)                        (* [handleSendMessage] *)
| HttpOk (response : ChatResponse)            (* [onSuccess] *)
| HttpFailed (error_message : string)         (* [onError] *)
| WsOpened (websocket : WebSocket)
| WsReceived (clock : Clock) (ev : WsEvent)   (* [websocket.onmessage] *)
| WsClosed
| Loaded (conversation : Conversation)        (* [loadConversation] *)
| Cleared.                                    (* [clearCurrentChat] *)

Definition step (e : Event) (st : State) : State * list Effect :=
  match e with
  | Typed text => (setCurrentMessage text st, [])
  | Picked a => (setSelectedAgent a st, [])
  | Send clock => handleSendMessage clock st
  | HttpOk response => onSuccess response st
  | HttpFailed m => onError m st
  | WsOpened w => (onopen w st, [])
  | WsReceived clock ev => (onmessage clock ev st, [])
  | WsClosed => (onclose st, [])
  | Loaded c => (loadConversation c st, [])
  | Cleared => (clearCurrentChat st, [])
  end.

Fixpoint run (es : list Event) (st : State) : State * list Effect :=
  match es with
  | [] => (st, [])
  | e :: es' =>
      let '(st1, out1) := step e st in
      let '(st2, out2) := run es' st1 in
      (st2, out1 ++ out2)
  end.

(** The message an event constructs ([userMessage] / [newMessage] in the
    source), if it constructs one. *)
Definition constructed (e : Event) (st : State) : list ChatMessage :=
  match e with
  | Send clock =>
      if truthy_str (trim (currentMessage st)) then [userMessage clock st] else []
  | HttpOk response => [newMessage_of_response response]
  | WsReceived clock ev =>
      if String.eqb (e_type ev) "message" then [newMessage_of_event clock ev] else []
  | _ => []
  end.

(** The events that replace the list instead of appending to it: they
    switch the page to another conversation. *)
Definition switches (e : Event) : bool :=
  match e with
  | Loaded _ | Cleared => true
  | _ => false
  end.

End Chat.

(** ** The orchestration engine behind the socket

    The router, the task decomposer and the tool bridge run on the server;
    the front end above only addresses them. They are modelled from their
    specification. *)

Inductive Result (E A : Type) :=
| Ok (a : A)
| Err (e : E).
Arguments Ok {E A} a.
Arguments Err {E A} e.

Module Router.

Record Agent := {
  id : string;
  name : string;
  capabilities : list string;
  active : bool;
  in_flight : nat;        (* current load *)
  registered_at : nat     (* registration order *)
}.

Record Request := {
  text : jsstr;
  preferred_agent_id : option string;
  capability_hints : list string
}.

Inductive RouteError := NoEligibleAgent.

Section Scored.
(** The weights of capability overlap, lexical match, load penalty and
    recency bonus are left open by the specification: the score is any
    function of the agent and the request. *)
Variable score : Agent → Request → Z.

(** Modelled from the spec: the order among candidates of the Router
    (section 4.2), which is not among the sources. [a] beats [b]: higher
    score, then lower load, then earlier registration. *)
Definition beats (req : Request) (a b : Agent) : bool :=
  (score b req <? score a req)%Z
  || ((score a req =? score b req)%Z
      && ((in_flight a <? in_flight b)%nat
          || ((in_flight a =? in_flight b)%nat
              && (registered_at a <? registered_at b)%nat))).

Definition best_of (req : Request) (candidates : list Agent) : option Agent :=
  foldl (λ best a,
           match best with
           | None => Some a
           | Some b => if beats req a b then Some a else Some b
           end) None candidates.

(** Modelled from the spec: the Router's selection (section 4.2), which is
    not among the sources. A preferred agent that is registered and active
    is selected unconditionally; otherwise the best-scoring active agent
    is, and routing fails with [NoEligibleAgent] when no agent is
    active. *)
Definition route (registry : gmap string Agent) (req : Request)
    : Result RouteError Agent :=
  let by_score :=
    match best_of req (filter (λ a, active a = true) (map_to_list registry).*2) with
    | Some a => Ok a
    | None => Err NoEligibleAgent
    end in
  match preferred_agent_id req with
  | Some i =>
      match registry !! i with
      | Some a => if active a then Ok a else by_score
      | None => by_score
      end
  | None => by_score
  end.

End Scored.

(** Modelled from the spec: request intake (section 6), which is not
    among the sources. The request carries the message text and the
    preferred agent id as the front end sent them. *)
Definition request_of (d : Chat.MessageData) : Request :=
  {| text := Chat.message d;
     preferred_agent_id := Chat.preferred_agent_id d;
     capability_hints := [] |}.

End Router.

Module Decomposer.

Record Task := {
  id : nat;
  capability : string;
  deps : list nat;       (* ids of the tasks that must complete first *)
  required : bool
}.

Inductive DecomposeError :=
| InvalidDecomposition
| TaskFailed (partial : list (nat * bool)).

Definition ids (g : list Task) : list nat := id <$> g.

(** Modelled from the spec: what makes a task graph malformed (section
    7), which is not among the sources. A graph is well formed when task
    ids are unique and every dependency names a task of the graph. *)
Definition well_formed (g : list Task) : bool :=
  bool_decide (NoDup (ids g))
  && forallb (λ t, forallb (λ d, bool_decide (d ∈ ids g)) (deps t)) g.

(** Modelled from the spec: eligibility of a task (section 4.3), which
    is not among the sources. A task is eligible when all its
    dependencies have completed. *)
Definition eligible (done : list nat) (t : Task) : bool :=
  forallb (λ d, bool_decide (d ∈ done)) (deps t).

(** Modelled from the spec: the ready set of the Decomposer (sections
    4.3 and 9), which is not among the sources, recomputed after each
    round of completions. The order of completion is returned; [None]
    when some tasks can never become eligible. *)
Fixpoint schedule (fuel : nat) (pending : list Task) (done : list nat)
    : option (list nat) :=
  match pending with
  | [] => Some done
  | _ :: _ =>
      match fuel with
      | O => None
      | S fuel' =>
          match filter (λ t, eligible done t = true) pending with
          | [] => None
          | ready =>
              schedule fuel'
                (filter (λ t, eligible done t = false) pending)
                (done ++ ids ready)
          end
      end
  end.

(** Modelled from the spec: the Decomposer's validation (sections 4.3 and
    7), which is not among the sources. A malformed or cyclic task graph
    is rejected with [InvalidDecomposition]; otherwise the execution
    order is fixed. *)
Definition decompose (g : list Task) : Result DecomposeError (list nat) :=
  if negb (well_formed g) then Err InvalidDecomposition
  else match schedule (length g) g [] with
       | Some order => Ok order
       | None => Err InvalidDecomposition
       end.

(** The outcome of a submission: the result, and the ids of the tasks
    that were run, in order. *)
Record Submission := {
  outcome : Result DecomposeError (list (nat * bool));
  executed : list nat
}.

(** Modelled from the spec: task execution (section 3, invariants),
    which is not among the sources. The tasks run in the fixed order; a
    task whose dependency failed is marked failed without being run.
    [exec] is the agent's verdict. *)
Fixpoint execute (exec : nat → bool) (order : list nat) (g : list Task)
    (succeeded : list nat) (results : list (nat * bool)) (ran : list nat)
    : list (nat * bool) * list nat :=
  match order with
  | [] => (results, ran)
  | i :: rest =>
      match list_find (λ t, id t = i) g with
      | Some (_, t) =>
          if eligible succeeded t then
            let ok := exec i in
            execute exec rest g (if ok then succeeded ++ [i] else succeeded)
              (results ++ [(i, ok)]) (ran ++ [i])
          else execute exec rest g succeeded (results ++ [(i, false)]) ran
      | None => execute exec rest g succeeded results ran
      end
  end.

(** Modelled from the spec: aggregation (section 4.3), which is not
    among the sources. The failure of a required task fails the whole
    decomposition. *)
Definition required_failed (g : list Task) (results : list (nat * bool)) : bool :=
  existsb (λ t, required t && bool_decide ((id t, false) ∈ results)) g.

(** Modelled from the spec: submission of a task graph (section 4.3),
    which is not among the sources: decomposition first, execution only
    of a graph that passed it, then aggregation, with [TaskFailed] and the
    partial results when a required task failed. *)
Definition submit (exec : nat → bool) (g : list Task) : Submission :=
  match decompose g with
  | Err e => {| outcome := Err e; executed := [] |}
  | Ok order =>
      let '(results, ran) := execute exec order g [] [] [] in
      {| outcome := if required_failed g results
                    then Err (TaskFailed results) else Ok results;
         executed := ran |}
  end.

(** Direct dependency between task ids, and cycles of it. *)
Definition depends (g : list Task) (a b : nat) : Prop :=
  ∃ t, t ∈ g ∧ id t = a ∧ b ∈ deps t.

Definition has_cycle (g : list Task) : Prop :=
  ∃ a, tc (depends g) a a.

(** What the scheduler maintains: no completed task lies on a cycle, and
    every task of the graph is pending or completed. *)
Definition sound (g pending : list Task) (done : list nat) : Prop :=
  (∀ d, d ∈ done → ¬ tc (depends g) d d)
  ∧ (∀ t, t ∈ g → t ∈ pending ∨ id t ∈ done)
  ∧ (∀ t, t ∈ pending → t ∈ g).

End Decomposer.

Module ToolBridge.

Record Provider := {
  endpoint : string;
  capabilities : list string;
  failed_probes : nat     (* consecutive failed health probes *)
}.

(** Modelled from the spec: provider health (section 4.5), which is not
    among the sources. Unhealthy after two consecutive failed probes. *)
Definition healthy (p : Provider) : bool := (failed_probes p <? 2)%nat.

Record Call := {
  provider : string;
  tool : string;
  arguments : jsstr;
  timeout : nat
}.

Inductive BridgeError :=
| NotFound
| DuplicateProvider
| ToolTimeout
| ToolError (payload : string).

(** What a provider does with one dispatched call: how long it takes, and
    what comes back. *)
Inductive Reply :=
| Returned (result : jsstr)
| Raised (payload : string).

Record Bridge := {
  providers : gmap string Provider;
  dispatched : list Call     (* every call sent to a provider, in order *)
}.

(** Modelled from the spec: registration and health probing of the Tool
    Bridge (section 4.5), which are not among the sources. *)
Definition register (name : string) (p : Provider) (br : Bridge)
    : Result BridgeError Bridge :=
  match providers br !! name with
  | Some _ => Err DuplicateProvider
  | None => Ok {| providers := <[name := p]> (providers br);
                  dispatched := dispatched br |}
  end.

Definition probed (success : bool) (p : Provider) : Provider :=
  {| endpoint := endpoint p; capabilities := capabilities p;
     failed_probes := if success then 0 else S (failed_probes p) |}.

Definition probe (name : string) (success : bool) (br : Bridge) : Bridge :=
  {| providers := alter (probed success) name (providers br);
     dispatched := dispatched br |}.

Definition dispatch (c : Call) (br : Bridge) : Bridge :=
  {| providers := providers br; dispatched := dispatched br ++ [c] |}.

(** Modelled from the spec: [call-tool] of the Tool Bridge (section 4.5),
    which is not among the sources. A call to an unknown provider fails
    with [NotFound], a call to an unhealthy one with [ToolError] before
    dispatch; a dispatched call that outlasts its timeout gives
    [ToolTimeout], and the provider's failure is passed on as [ToolError].
    Nothing is dispatched a second time. *)
Definition call_tool (world : Call → nat * Reply) (c : Call) (br : Bridge)
    : Bridge * Result BridgeError jsstr :=
  match providers br !! provider c with
  | None => (br, Err NotFound)
  | Some p =>
      if negb (healthy p) then (br, Err (ToolError "provider unhealthy"))
      else
        let br' := dispatch c br in
        let '(duration, reply) := world c in
        if (timeout c <? duration)%nat then (br', Err ToolTimeout)
        else match reply with
             | Returned v => (br', Ok v)
             | Raised e => (br', Err (ToolError e))
             end
  end.

End ToolBridge.

(** ** Runs of the chat page, and sample data *)

Module ChatRuns.
Import Chat.

(** The messages a run of events constructs, in the order of the events. *)
Fixpoint appended (es : list Event) (st : State) : list ChatMessage :=
  match es with
  | [] => []
  | e :: es' => constructed e st ++ appended es' (step e st).1
  end.

(** Sample clock, reply, pushed event, states and socket. *)
Definition clock0 : Clock :=
  {| now_toString := "1700000000000"; now_toISOString := "2023-11-14T22:13:20.000Z" |}.

Definition reply0 : ChatResponse :=
  {| r_id := "msg_2"; r_message := lit "Q4 sales rose"; r_timestamp := "2023-11-14T22:13:21Z";
     r_agent_id := Some "sales_agent"; r_agent_name := Some "Sales";
     r_metadata := None; r_conversation_id := Some "conv_1" |}.

Definition pushed0 : WsEvent :=
  {| e_type := "message";
     e_data := {| e_message_id := None; e_message := lit "stock is low";
                  e_agent_id := Some "inventory_agent"; e_agent_name := None;
                  e_metadata := None; e_status := None |};
     e_timestamp := "2023-11-14T22:13:22Z" |}.

Definition typed_hi : State := setCurrentMessage (lit " hi ") initial.

Definition socket0 : WebSocket :=
  {| url := "ws://localhost:8080/api/v1/ws/chat/u1"; readyState := OPEN |}.

End ChatRuns.

(** ** Failed sends, and the routing of a chosen agent: notions used below *)

Module Turns.
Import Chat ChatRuns.

(** The page after a send in state [st] whose HTTP request failed with
    message [err]. *)
Definition failed_turn (clock : Clock) (err : string) (st : State) : State :=
  (onError err (handleSendMessage clock st).1).1.

(** The only free-form slot of a [ChatMessage] is [metadata]: a message
    annotated with an error has it set. *)
Definition error_annotated (m : ChatMessage) : Prop := is_Some (metadata m).

(** The failed attempt is on record when a message of this turn carries
    an annotation. *)
Definition failure_recorded (clock : Clock) (err : string) (st : State) : Prop :=
  ∃ m, m ∈ drop (length (messages st)) (messages (failed_turn clock err st))
       ∧ error_annotated m.

Definition sales : Router.Agent :=
  {| Router.id := "sales"; Router.name := "Sales";
     Router.capabilities := ["sales-analysis"]; Router.active := true;
     Router.in_flight := 0; Router.registered_at := 0 |}.

Definition inventory : Router.Agent :=
  {| Router.id := "inventory"; Router.name := "Inventory";
     Router.capabilities := ["stock-analysis"]; Router.active := true;
     Router.in_flight := 3; Router.registered_at := 1 |}.

Definition registry0 : gmap string Router.Agent :=
  <["sales" := sales]> (<["inventory" := inventory]> ∅).

(** A score that always favours the sales agent. *)
Definition score0 (a : Router.Agent) (_ : Router.Request) : Z :=
  if String.eqb (Router.id a) "sales" then 100%Z else 0%Z.

Definition picked_inventory : State :=
  setSelectedAgent (Some "inventory") typed_hi.

End Turns.

(** ** The server-sent stream as a text: notions used below *)

Module StreamText.
Import Api.

(** The lines of a text that are closed by a line feed, and what follows
    the last line feed. *)
Definition complete_lines (s : jsstr) : list jsstr := removelast (split_nl s).
Definition remainder (s : jsstr) : jsstr := default [] (last (split_nl s)).

(** The payload of a [data: ] line. *)
Definition payload_of (line : jsstr) : option jsstr :=
  if startsWith (lit "data: ") line then Some (slice 6 line) else None.

Definition payloads (lines : list jsstr) : list jsstr := omap payload_of lines.

Definition is_done (data : jsstr) : bool := eqb_str data (lit "[DONE]").

(** The payloads that come before the terminal marker. *)
Fixpoint until_done (ps : list jsstr) : list jsstr :=
  match ps with
  | [] => []
  | p :: ps' => if is_done p then [] else p :: until_done ps'
  end.

Definition done_seen (ps : list jsstr) : bool := existsb is_done ps.

(** The text a fresh decoder makes of the chunks of a body. *)
Definition text_of (chunks : list (list Byte.byte)) : jsstr :=
  (decode new_TextDecoder (concat chunks)).2.

(** A successful response whose body is read as the given chunks. *)
Definition response_of (chunks : list (list Byte.byte)) : FetchResult :=
  Fulfilled {| ok := true; status := 200; statusText := "OK";
               body := Some (Value <$> chunks) |}.

(** Sample data: an event stream, cut in two ways, and a [JSON.parse]
    that knows its one JSON payload. *)
Definition bytes (s : string) : list Byte.byte := String.list_byte_of_string s.
Definition dq : list Byte.byte := [Byte.x22].

Definition sample_body : list Byte.byte :=
  bytes "data: {" ++ dq ++ bytes "content" ++ dq ++ bytes ":" ++ dq
    ++ bytes "根据" ++ dq ++ bytes "}" ++ [Byte.x0a]
    ++ bytes "data: plain" ++ [Byte.x0a]
    ++ bytes ": keep-alive" ++ [Byte.x0a]
    ++ bytes "data: [DONE]" ++ [Byte.x0a]
    ++ bytes "data: late" ++ [Byte.x0a].

Definition sample_object : jsstr :=
  lit "{" ++ [0x22%N] ++ lit "content" ++ [0x22%N] ++ lit ":" ++ [0x22%N]
    ++ [0x6839%N; 0x636E%N] ++ [0x22%N] ++ lit "}".

Definition sample_parser : JSONParser :=
  λ data, if eqb_str data sample_object
          then Some (JObj [(lit "content", JStr [0x6839%N; 0x636E%N])])
          else None.

(** Cut inside a character, inside a line, and inside the marker. *)
Definition sample_cut : list (list Byte.byte) :=
  [take 19 sample_body; take 10 (drop 19 sample_body); [];
   take 30 (drop 29 sample_body); drop 59 sample_body].

End StreamText.

(** ** Sample task graphs and tool providers *)

Module EngineSamples.
Import Decomposer ToolBridge.

(** Two tasks that wait for each other. *)
Definition deadlocked : list Task :=
  [ {| id := 1; capability := "sales-analysis"; deps := [2]; required := true |};
    {| id := 2; capability := "stock-analysis"; deps := [1]; required := false |} ].

(** Sales and stock in parallel, then a report on both. *)
Definition quarterly : list Task :=
  [ {| id := 1; capability := "sales-analysis"; deps := []; required := true |};
    {| id := 2; capability := "stock-analysis"; deps := []; required := false |};
    {| id := 3; capability := "report"; deps := [1; 2]; required := true |} ].

Definition walmart_tools : Provider :=
  {| endpoint := "http://localhost:8002"; capabilities := ["tools"; "resources"];
     failed_probes := 0 |}.

Definition bridge0 : Bridge :=
  {| providers := <["walmart_tools" := walmart_tools]> ∅; dispatched := [] |}.

Definition analyze_sales : Call :=
  {| provider := "walmart_tools"; tool := "analyze_sales";
     arguments := lit "{period: last_month}"; timeout := 5 |}.

(** A provider that answers after seven seconds, the timeout being five. *)
Definition slow_world (_ : Call) : nat * Reply := (7, Returned (lit "ok")).

End EngineSamples.

(** ** More of the authentication store, the login page and the logout
    entry of the layout *)

Module AuthActions.
Import AuthStore Api.

(** [Partial<User>]: the fields an update carries. *)
Record PartialUser := {
  pu_id : option string;
  pu_username : option string;
  pu_email : option string;
  pu_fullName : option string;
  pu_role : option string;
  pu_department : option (option string);
  pu_isActive : option bool;
  pu_isSuperuser : option bool
}.

(** [{ ...currentUser, ...userData }] *)
Definition spread (currentUser : User) (userData : PartialUser) : User :=
  {| id := default (id currentUser) (pu_id userData);
     username := default (username currentUser) (pu_username userData);
     email := default (email currentUser) (pu_email userData);
     fullName := default (fullName currentUser) (pu_fullName userData);
     role := default (role currentUser) (pu_role userData);
     department := default (department currentUser) (pu_department userData);
     isActive := default (isActive currentUser) (pu_isActive userData);
     isSuperuser := default (isSuperuser currentUser) (pu_isSuperuser userData) |}.

Definition updateUser (userData : PartialUser) (b : Browser) : Browser :=
  match user (auth b) with
  | Some currentUser =>
      set (λ s, {| user := Some (spread currentUser userData);
                   token := token s; refreshToken := refreshToken s;
                   isAuthenticated := isAuthenticated s;
                   isLoading := isLoading s |}) b
  | None => b
  end.

Definition no_fields : PartialUser :=
  {| pu_id := None; pu_username := None; pu_email := None; pu_fullName := None;
     pu_role := None; pu_department := None; pu_isActive := None;
     pu_isSuperuser := None |}.

(** The actions of the store. *)
Inductive Action :=
| Login (tok rtok : string) (u : User)
| Logout
| UpdateUser (userData : PartialUser)
| SetLoading (loading : bool)
| ClearAuth.

Definition act (a : Action) : Browser → Browser :=
  match a with
  | Login tok rtok u => login tok rtok u
  | Logout => logout
  | UpdateUser userData => updateUser userData
  | SetLoading loading => setLoading loading
  | ClearAuth => clearAuth
  end.

Definition acts (l : list Action) (b : Browser) : Browser :=
  foldl (λ b a, act a b) b l.

(** What is persisted, if anything, is the partialized current state. *)
Definition in_sync (b : Browser) : Prop :=
  ∀ item, localStorage b !! "auth-storage" = Some item →
          item = AuthEntry (partialize (auth b)).

(** *** The login page ([pages/Login.tsx]) *)

Record ResponseUser := {
  ru_id : string;
  ru_username : string;
  ru_email : string;
  full_name : string;
  ru_role : string;
  ru_department : option string;
  is_active : bool;
  is_superuser : bool
}.

Record LoginResponse := {
  access_token : string;
  refresh_token : string;
  response_user : ResponseUser
}.

(** [message.success(text)]; [toasts] holds the texts of all the
    notifications shown. *)
Definition message_success (text : string) (b : Browser) : Browser :=
  {| auth := auth b; localStorage := localStorage b;
     location_href := location_href b; toasts := toasts b ++ [text] |}.

(** [loginMutation]'s [onSuccess]. *)
Definition login_onSuccess (response : LoginResponse) (b : Browser) : Browser :=
  let u := response_user response in
  set_location_href "/dashboard"
    (message_success "登录成功！"
       (login (access_token response) (refresh_token response)
          {| id := ru_id u; username := ru_username u; email := ru_email u;
             fullName := full_name u; role := ru_role u;
             department := ru_department u; isActive := is_active u;
             isSuperuser := is_superuser u |} b)).

(** [error.response?.data?.detail || '登录失败，请检查用户名和密码'] *)
Definition login_error_text (error : AxiosError) : string :=
  match response error with
  | Some (_, Some d) =>
      if truthy_opt (detail d) then default "" (detail d)
      else "登录失败，请检查用户名和密码"
  | _ => "登录失败，请检查用户名和密码"
  end.

(** [loginMutation]'s [onError]. *)
Definition login_onError (error : AxiosError) (b : Browser) : Browser :=
  message_error (login_error_text error) b.

(** A rejected [api.post('/auth/login', ...)]: the response interceptor
    of the axios instance runs first, then the mutation's [onError]. *)
Definition login_rejected (error : AxiosError) (b : Browser) : Browser :=
  login_onError error (response_error_interceptor error b).

(** *** The logout entry of the user menu (layout component)

    [logout(); navigate('/login')]: the location is that of the router. *)
Definition menu_logout (b : Browser) : Browser :=
  set_location_href "/login" (logout b).

(** Sample data. *)
Definition alice : User :=
  {| id := "u1"; username := "alice"; email := "alice@example.com";
     fullName := "Alice"; role := "admin"; department := None;
     isActive := true; isSuperuser := false |}.

Definition fresh : Browser :=
  {| auth := initialState; localStorage := ∅; location_href := "/login";
     toasts := [] |}.

Definition forbidden : AxiosError :=
  {| response := Some (403%N, None); request := true |}.

End AuthActions.

(** ** More of the chat page: the keyboard, and what goes on the wire *)

Module ChatKeys.
Import Chat.

Record KeyboardEvent := {
  key : string;
  shiftKey : bool
}.

(** [handleKeyPress]: the new state, the effects, and whether
    [e.preventDefault()] was called. *)
Definition handleKeyPress (e : KeyboardEvent) (clock : Clock) (st : State)
    : (State * list Effect) * bool :=
  if String.eqb (key e) "Enter" && negb (shiftKey e)
  then (handleSendMessage clock st, true)
  else ((st, []), false).

(** The request an effect puts on the wire, if it is one. *)
Definition request_of_effect (e : Effect) : option MessageData :=
  match e with
  | WsSend frame => Some (data frame)
  | HttpPost _ body => Some body
  | _ => None
  end.

Definition requests (out : list Effect) : list MessageData :=
  omap request_of_effect out.

Definition is_user (m : ChatMessage) : bool :=
  match role m with user => true | assistant => false end.

(** The events that set [currentConversationId]. *)
Definition readdresses (e : Event) : bool :=
  match e with
  | Loaded _ | Cleared | HttpOk _ => true
  | _ => false
  end.

(** The events that clear the typing indicator. *)
Definition settles (e : Event) : bool :=
  match e with
  | HttpOk _ | HttpFailed _ => true
  | WsReceived _ ev => String.eqb (e_type ev) "message"
  | _ => false
  end.

Definition is_picked (e : Event) : bool :=
  match e with Picked _ => true | _ => false end.

(** Sample data: a server-side error pushed over the socket. *)
Definition pushed_error : WsEvent :=
  {| e_type := "error";
     e_data := {| e_message_id := None; e_message := lit "agent failed";
                  e_agent_id := None; e_agent_name := None;
                  e_metadata := None; e_status := None |};
     e_timestamp := "2023-11-14T22:13:23Z" |}.

End ChatKeys.

(** ** Event streams as the server writes them, and streams that break *)

Module EventStream.
Import Api StreamText.

(** The wire format of [POST /chat/stream]: one [data: ] line per
    payload, then the terminal marker. *)
Definition sse_line (p : list Byte.byte) : list Byte.byte :=
  bytes "data: " ++ p ++ [Byte.x0a].

Definition sse (ps : list (list Byte.byte)) : list Byte.byte :=
  concat (sse_line <$> ps) ++ sse_line (bytes "[DONE]").

(** A payload of ASCII bytes, without a line feed, other than the
    marker. *)
Definition plain (p : list Byte.byte) : Prop :=
  Forall (λ b, (Byte.to_N b < 0x80)%N ∧ Byte.to_N b ≠ 0x0A%N) p
  ∧ p ≠ bytes "[DONE]".

(** The code units of ASCII bytes. *)
Definition units (p : list Byte.byte) : jsstr := Byte.to_N <$> p.

(** A successful response whose body gives the chunks and then fails. *)
Definition broken_response (chunks : list (list Byte.byte)) (e : string)
    (rest : list Read) : FetchResult :=
  Fulfilled {| ok := true; status := 200; statusText := "OK";
               body := Some ((Value <$> chunks) ++ ReadError e :: rest) |}.

End EventStream.

(** ** The route guard ([App.tsx]) and the reload of the page *)

Module App.
Import AuthStore.

Inductive Page :=
| Login | Dashboard | ChatInterface | AgentManagement
| DocumentManagement | Analytics | Settings.

Inductive Element :=
| Render (page : Page)       (* inside [Layout] when authenticated *)
| Navigate (to : string).    (* [<Navigate to=... replace />] *)

Record Route := {
  path : string;
  element : Element
}.

(** The two [<Routes>] blocks, chosen by [isAuthenticated]. *)
Definition routes (isAuthenticated : bool) : list Route :=
  if negb isAuthenticated then
    [ {| path := "/login"; element := Render Login |};
      {| path := "*"; element := Navigate "/login" |} ]
  else
    [ {| path := "/"; element := Navigate "/dashboard" |};
      {| path := "/dashboard"; element := Render Dashboard |};
      {| path := "/chat"; element := Render ChatInterface |};
      {| path := "/agents"; element := Render AgentManagement |};
      {| path := "/documents"; element := Render DocumentManagement |};
      {| path := "/analytics"; element := Render Analytics |};
      {| path := "/settings"; element := Render Settings |};
      {| path := "*"; element := Navigate "/dashboard" |} ].

Section Matching.
(** The router's matching of a route path against a location is the
    library's; [matchPath pattern pathname]. *)
Variable matchPath : string → string → bool.

(** The route shown: the first that matches, the splat standing last as
    it does in the router's ranking. *)
Definition select (pathname : string) (rs : list Route) : option Element :=
  element <$> List.find (λ r, matchPath (path r) pathname) rs.

(** The page shown at a location, following at most [redirects]
    redirections. *)
Fixpoint shown (redirects : nat) (isAuthenticated : bool) (pathname : string)
    : option Page :=
  match select pathname (routes isAuthenticated) with
  | Some (Render page) => Some page
  | Some (Navigate to) =>
      match redirects with
      | O => None
      | S n => shown n isAuthenticated to
      end
  | None => None
  end.

End Matching.

(** A matcher that compares literally and lets the splat match all. *)
Definition literal (pattern pathname : string) : bool :=
  String.eqb pattern "*" || String.eqb pattern pathname.

(** The state of the store after the page is loaded again: [persist]
    reads the ['auth-storage'] entry back over the initial state. *)
Definition rehydrated (b : Browser) : AuthState :=
  match localStorage b !! "auth-storage" with
  | Some (AuthEntry p) =>
      {| user := p_user p; token := p_token p; refreshToken := p_refreshToken p;
         isAuthenticated := p_isAuthenticated p;
         isLoading := isLoading initialState |}
  | _ => initialState
  end.

End App.

(** ** The theme store ([stores/themeStore.ts]) *)

Module ThemeStore.

Inductive Language := zh_CN | en_US.

Record ThemeState := {
  isDarkMode : bool;
  primaryColor : string;
  language : Language;
  sidebarCollapsed : bool;
  compactMode : bool
}.

Definition initialState : ThemeState :=
  {| isDarkMode := false; primaryColor := "#1890ff"; language := zh_CN;
     sidebarCollapsed := false; compactMode := false |}.

(** Calls on [document.documentElement.style], in order. *)
Inductive StyleOp :=
| setProperty (name value : string)
| removeProperty (name : string).

(** The store, its persisted entry (['theme-storage'], the whole state),
    and the root element of the document. *)
Record Page := {
  theme : ThemeState;
  stored : option ThemeState;
  data_theme : option string;    (* the [data-theme] attribute *)
  lang : string;                 (* [documentElement.lang] *)
  style : list StyleOp
}.

(** [set(partial)] through [persist]. *)
Definition set (f : ThemeState → ThemeState) (pg : Page) : Page :=
  {| theme := f (theme pg); stored := Some (f (theme pg));
     data_theme := data_theme pg; lang := lang pg; style := style pg |}.

Definition setAttribute_data_theme (v : string) (pg : Page) : Page :=
  {| theme := theme pg; stored := stored pg;
     data_theme := Some v; lang := lang pg; style := style pg |}.

Definition set_lang (v : string) (pg : Page) : Page :=
  {| theme := theme pg; stored := stored pg;
     data_theme := data_theme pg; lang := v; style := style pg |}.

Definition style_call (op : StyleOp) (pg : Page) : Page :=
  {| theme := theme pg; stored := stored pg;
     data_theme := data_theme pg; lang := lang pg; style := style pg ++ [op] |}.

(** [newDarkMode ? 'dark' : 'light'] *)
Definition theme_name (dark : bool) : string := if dark then "dark" else "light".

(** [language === 'zh-CN' ? 'zh-CN' : 'en-US'] *)
Definition lang_name (l : Language) : string :=
  match l with zh_CN => "zh-CN" | en_US => "en-US" end.

Definition toggleDarkMode (pg : Page) : Page :=
  let newDarkMode := negb (isDarkMode (theme pg)) in
  setAttribute_data_theme (theme_name newDarkMode)
    (set (λ s, {| isDarkMode := newDarkMode; primaryColor := primaryColor s;
                  language := language s; sidebarCollapsed := sidebarCollapsed s;
                  compactMode := compactMode s |}) pg).

Definition setPrimaryColor (color : string) (pg : Page) : Page :=
  style_call (setProperty "--primary-color" color)
    (set (λ s, {| isDarkMode := isDarkMode s; primaryColor := color;
                  language := language s; sidebarCollapsed := sidebarCollapsed s;
                  compactMode := compactMode s |}) pg).

Definition setLanguage (l : Language) (pg : Page) : Page :=
  set_lang (lang_name l)
    (set (λ s, {| isDarkMode := isDarkMode s; primaryColor := primaryColor s;
                  language := l; sidebarCollapsed := sidebarCollapsed s;
                  compactMode := compactMode s |}) pg).

Definition setSidebarCollapsed (collapsed : bool) (pg : Page) : Page :=
  set (λ s, {| isDarkMode := isDarkMode s; primaryColor := primaryColor s;
               language := language s; sidebarCollapsed := collapsed;
               compactMode := compactMode s |}) pg.

Definition toggleSidebar (pg : Page) : Page :=
  setSidebarCollapsed (negb (sidebarCollapsed (theme pg))) pg.

Definition toggleCompactMode (pg : Page) : Page :=
  set (λ s, {| isDarkMode := isDarkMode s; primaryColor := primaryColor s;
               language := language s; sidebarCollapsed := sidebarCollapsed s;
               compactMode := negb (compactMode (theme pg)) |}) pg.

Definition resetTheme (pg : Page) : Page :=
  style_call (removeProperty "--primary-color")
    (set_lang "zh-CN"
       (setAttribute_data_theme "light" (set (λ _, initialState) pg))).

(** The callback of [onRehydrateStorage], given the state read back. *)
Definition onRehydrateStorage (state : option ThemeState) (pg : Page) : Page :=
  match state with
  | Some s =>
      let pg1 := setAttribute_data_theme (theme_name (isDarkMode s)) pg in
      let pg2 := set_lang (lang_name (language s)) pg1 in
      if negb (String.eqb (primaryColor s) (primaryColor initialState))
      then style_call (setProperty "--primary-color" (primaryColor s)) pg2
      else pg2
  | None => pg
  end.

Inductive Action :=
| ToggleDarkMode
| SetPrimaryColor (color : string)
| SetLanguage (l : Language)
| ToggleSidebar
| SetSidebarCollapsed (collapsed : bool)
| ToggleCompactMode
| ResetTheme.

Definition act (a : Action) : Page → Page :=
  match a with
  | ToggleDarkMode => toggleDarkMode
  | SetPrimaryColor color => setPrimaryColor color
  | SetLanguage l => setLanguage l
  | ToggleSidebar => toggleSidebar
  | SetSidebarCollapsed collapsed => setSidebarCollapsed collapsed
  | ToggleCompactMode => toggleCompactMode
  | ResetTheme => resetTheme
  end.

Definition acts (l : list Action) (pg : Page) : Page :=
  foldl (λ pg a, act a pg) pg l.

(** The document and the persisted entry agree with the store. *)
Definition in_step (pg : Page) : Prop :=
  data_theme pg = Some (theme_name (isDarkMode (theme pg)))
  ∧ lang pg = lang_name (language (theme pg))
  ∧ stored pg = Some (theme pg).

(** A page as it is first loaded, nothing stored. *)
Definition blank : Page :=
  {| theme := initialState; stored := None; data_theme := None; lang := "";
     style := [] |}.

End ThemeStore.

(* ===================================================================== *)
(** * Part II: properties                                                 *)
(* ===================================================================== *)

(** ** Logging out *)

Section AuthStoreProps.
Import AuthStore Api.

Lemma auth_logout (b : Browser) : auth (logout b) = initialState.
Proof. reflexivity. Qed.

Lemma localStorage_logout (b : Browser) :
  localStorage (logout b) !! "auth-storage" = None.
Proof. unfold logout, removeItem; simpl. apply lookup_delete_eq. Qed.

Lemma interceptor_401 (data : option ErrorData) (req : bool) (b : Browser) :
  response_error_interceptor {| response := Some (401%N, data); request := req |} b
  = set_location_href "/login" (logout (message_error "登录已过期，请重新登录" b)).
Proof. reflexivity. Qed.

(** C10. After [logout] the store holds no user, no token, no refresh
    token, and is not authenticated, and ['auth-storage'] is gone from
    [localStorage]. A response with status 401 on the axios instance runs
    that same [logout] and then sets the location to ['/login']. Requests
    built after the logout carry no bearer token. *)
Theorem logout_clears_authentication (b : Browser) :
  (user (auth (logout b)) = None
   ∧ token (auth (logout b)) = None
   ∧ refreshToken (auth (logout b)) = None
   ∧ isAuthenticated (auth (logout b)) = false
   ∧ localStorage (logout b) !! "auth-storage" = None)
  ∧ (∀ data req,
       let b' := response_error_interceptor
                   {| response := Some (401%N, data); request := req |} b in
       user (auth b') = None
       ∧ token (auth b') = None
       ∧ refreshToken (auth b') = None
       ∧ isAuthenticated (auth b') = false
       ∧ localStorage b' !! "auth-storage" = None
       ∧ location_href b' = "/login")
  ∧ (∀ rid headers,
       request_interceptor rid (logout b) headers !! "Authorization"
       = headers !! "Authorization")
  ∧ stream_authorization (logout b) = "".
Proof.
  split; [|split; [|split]].
  - rewrite auth_logout. repeat split. apply localStorage_logout.
  - intros data req b'. subst b'. rewrite interceptor_401.
    cbn [set_location_href auth localStorage location_href].
    rewrite auth_logout. repeat split. apply localStorage_logout.
  - intros rid headers. unfold request_interceptor. rewrite auth_logout.
    cbn [token initialState]. by rewrite lookup_insert_ne.
  - unfold stream_authorization. by rewrite auth_logout.
Qed.

(** The store can be logged into again: the cleared state is not stuck. *)
Example login_after_logout (u : User) (b : Browser) :
  token (auth (login "t" "r" u (logout b))) = Some "t"
  ∧ localStorage (login "t" "r" u (logout b)) !! "auth-storage"
    = Some (AuthEntry {| p_token := Some "t"; p_refreshToken := Some "r";
                         p_user := Some u; p_isAuthenticated := true |}).
Proof. split; [reflexivity|]. unfold login, set; simpl. apply lookup_insert_eq. Qed.

End AuthStoreProps.

(** ** Strings *)

Section StringProps.

Lemma trimStart_blank (s : jsstr) :
  Forall (λ c, is_whitespace c = true) s → trimStart s = [].
Proof. induction 1 as [|c s Hc _ IH]; simpl; [done|]. by rewrite Hc. Qed.

Lemma trim_blank (s : jsstr) :
  Forall (λ c, is_whitespace c = true) s → trim s = [].
Proof. intros Hs. unfold trim, trimEnd. by rewrite (trimStart_blank s Hs). Qed.

Lemma trimStart_nil_blank (s : jsstr) :
  trimStart s = [] → Forall (λ c, is_whitespace c = true) s.
Proof.
  induction s as [|c s IH]; simpl; [constructor|].
  destruct (is_whitespace c) eqn:Hc; [|discriminate].
  intros Hs. constructor; auto.
Qed.

(** [trim] gives the empty string on blank input only. *)
Lemma trim_nil_iff (s : jsstr) :
  trim s = [] ↔ Forall (λ c, is_whitespace c = true) s.
Proof.
  split; [|apply trim_blank].
  unfold trim, trimEnd. intros Hs.
  apply trimStart_nil_blank.
  assert (Hr : trimStart (rev (trimStart s)) = []).
  { apply (f_equal (@rev N)) in Hs. by rewrite rev_involutive in Hs. }
  apply trimStart_nil_blank in Hr.
  apply Forall_rev in Hr. rewrite rev_involutive in Hr.
  destruct (trimStart s) as [|c r] eqn:E; [done|].
  exfalso. clear Hs. revert c r E Hr.
  induction s as [|x s IH]; simpl; [discriminate|].
  intros c r. destruct (is_whitespace x) eqn:Hx.
  - apply IH.
  - intros [= <- <-] Hall. inversion Hall; congruence.
Qed.

Example trim_sample : trim (lit "  hi there  ") = lit "hi there".
Proof. reflexivity. Qed.

Example trim_ideographic_space : trim [0x3000%N; 0x0A%N; 0x20%N] = [].
Proof. reflexivity. Qed.

End StringProps.

(** ** The chat page *)

Section ChatProps.
Import Chat ChatRuns.

Lemma messages_step (e : Event) (st : State) :
  switches e = false →
  messages (step e st).1 = messages st ++ constructed e st.
Proof.
  destruct e; simpl; try discriminate; intros _;
    rewrite ?app_nil_r; try reflexivity.
  - unfold handleSendMessage.
    destruct (truthy_str (trim (currentMessage st))); simpl;
      by rewrite ?app_nil_r.
  - unfold onmessage. destruct (String.eqb (e_type ev) "message"); simpl.
    + reflexivity.
    + destruct (_ && _); simpl; by rewrite app_nil_r.
Qed.

Lemma messages_run (es : list Event) (st : State) :
  Forall (λ e, switches e = false) es →
  messages (run es st).1 = messages st ++ appended es st.
Proof.
  intros Hes. revert st.
  induction Hes as [|e es He _ IH]; intros st; simpl.
  - by rewrite app_nil_r.
  - pose proof (messages_step e st He) as Hstep.
    destruct (step e st) as [st1 out1] eqn:E1. simpl in *.
    specialize (IH st1). destruct (run es st1) as [st2 out2]. simpl in *.
    by rewrite IH, Hstep, <- app_assoc.
Qed.

(** C1. Along any run of the page that stays in one conversation, the
    message list is its initial content followed by the messages that
    the sends, the HTTP replies and the socket deliveries constructed, in
    the order of those events; each of the three adds its message at the
    end, and no message already in the list changes place or content. *)
Theorem messages_read_back_in_append_order (es : list Event) (st : State) :
  Forall (λ e, switches e = false) es →
  messages (run es st).1 = messages st ++ appended es st
  ∧ (∀ i m, messages st !! i = Some m → messages (run es st).1 !! i = Some m)
  ∧ (∀ clock, trim (currentMessage st) ≠ [] →
       messages (handleSendMessage clock st).1 = messages st ++ [userMessage clock st])
  ∧ (∀ response,
       messages (onSuccess response st).1
       = messages st ++ [newMessage_of_response response])
  ∧ (∀ clock ev, e_type ev = "message" →
       messages (onmessage clock ev st)
       = messages st ++ [newMessage_of_event clock ev]).
Proof.
  intros Hes. pose proof (messages_run es st Hes) as Hrun.
  split; [done|]. split; [|split; [|split]].
  - intros i m Hi. rewrite Hrun. by apply lookup_app_l_Some.
  - intros clock Hne. unfold handleSendMessage.
    destruct (trim (currentMessage st)) eqn:E; [done|]. reflexivity.
  - reflexivity.
  - intros clock ev Hev. unfold onmessage. by rewrite Hev.
Qed.

Lemma messages_read_back_in_append_order_witness :
  messages (run [Send clock0; HttpOk reply0; WsReceived clock0 pushed0] typed_hi).1
  = [userMessage clock0 typed_hi; newMessage_of_response reply0;
     newMessage_of_event clock0 pushed0].
Proof.
  refine (proj1 (messages_read_back_in_append_order
                   [Send clock0; HttpOk reply0; WsReceived clock0 pushed0]
                   typed_hi _)).
  repeat constructor.
Defined.

(** C9. With an empty or blank input [handleSendMessage] does nothing:
    the state, hence the message list and the typing indicator, is
    unchanged, and nothing goes out on the socket or over HTTP. The send
    button is disabled as well. *)
Theorem blank_input_is_not_sent (clock : Clock) (st : State) :
  Forall (λ c, is_whitespace c = true) (currentMessage st) →
  handleSendMessage clock st = (st, []) ∧ send_disabled st = true.
Proof.
  intros Hblank. unfold handleSendMessage, send_disabled.
  by rewrite (trim_blank _ Hblank).
Qed.

Lemma blank_input_is_not_sent_witness :
  handleSendMessage clock0 (setCurrentMessage (lit "   ") initial)
  = (setCurrentMessage (lit "   ") initial, [])
  ∧ send_disabled (setCurrentMessage (lit "   ") initial) = true.
Proof.
  apply (blank_input_is_not_sent clock0 (setCurrentMessage (lit "   ") initial)).
  repeat constructor.
Defined.

(** The guard is exact: any other input is sent. *)
Lemma nonblank_input_is_sent (clock : Clock) (st : State) :
  ¬ Forall (λ c, is_whitespace c = true) (currentMessage st) →
  (handleSendMessage clock st).2 ≠ [].
Proof.
  intros Hnb. unfold handleSendMessage.
  destruct (trim (currentMessage st)) eqn:E.
  - exfalso. apply Hnb. by apply trim_nil_iff.
  - simpl. by destruct (ws_open (ws st)).
Qed.

(** C2. A send with an open socket puts the request (text, conversation
    id, preferred agent id) on the socket and makes no HTTP request; with
    no open socket the same request goes out as one [POST /chat/message],
    whose reply comes back as one complete message. *)
Theorem send_over_socket_or_http (clock : Clock) (st : State) :
  trim (currentMessage st) ≠ [] →
  (ws_open (ws st) = true →
     (handleSendMessage clock st).2
     = [WsSend {| type := "chat"; data := messageData st |}])
  ∧ (ws_open (ws st) = false →
     (handleSendMessage clock st).2 = [HttpPost "/chat/message" (messageData st)])
  ∧ message (messageData st) = trim (currentMessage st)
  ∧ md_conversation_id (messageData st) = currentConversationId st
  ∧ preferred_agent_id (messageData st) = selectedAgent st
  ∧ (∀ response st',
       messages (onSuccess response st').1
       = messages st' ++ [newMessage_of_response response]
       ∧ content (newMessage_of_response response) = r_message response).
Proof.
  intros Hne.
  assert (Hs : truthy_str (trim (currentMessage st)) = true)
    by (destruct (trim (currentMessage st)); done).
  unfold handleSendMessage. rewrite Hs. simpl.
  repeat split; try reflexivity; intros ->; reflexivity.
Qed.

Lemma send_over_socket_or_http_witness :
  (handleSendMessage clock0 (onopen socket0 typed_hi)).2
  = [WsSend {| type := "chat";
               data := {| message := lit "hi"; md_conversation_id := None;
                          preferred_agent_id := None |} |}]
  ∧ (handleSendMessage clock0 typed_hi).2
    = [HttpPost "/chat/message"
         {| message := lit "hi"; md_conversation_id := None;
            preferred_agent_id := None |}].
Proof.
  split.
  - apply (send_over_socket_or_http clock0 (onopen socket0 typed_hi));
      [discriminate | reflexivity].
  - apply (send_over_socket_or_http clock0 typed_hi);
      [discriminate | reflexivity].
Defined.

End ChatProps.

(** ** Failed sends *)

Section FailedSendProps.
Import Chat ChatRuns Turns.

(** C5, as stated, fails: after a failed send the list holds the user's
    message and nothing else, and that message carries no annotation. *)
Lemma failed_send_is_not_recorded :
  trim (currentMessage typed_hi) ≠ []
  ∧ messages (failed_turn clock0 "Network Error" typed_hi)
    = [userMessage clock0 typed_hi]
  ∧ ¬ failure_recorded clock0 "Network Error" typed_hi.
Proof.
  split; [discriminate|]. split; [reflexivity|].
  intros (m & Hm & Hann).
  change (m ∈ [userMessage clock0 typed_hi]) in Hm.
  apply list_elem_of_singleton in Hm. subst m.
  destruct Hann as [v Hv]. discriminate Hv.
Qed.

(** C5, amended. After a failed send the user's message is still the last
    element of the list and stays at its place through the events that
    follow; a failed HTTP send is reported as an error notification and
    the typing indicator is cleared; neither that report nor an ['error']
    event on the socket adds a message. *)
Theorem failed_send_keeps_user_turn (clock : Clock) (err : string) (st : State) :
  trim (currentMessage st) ≠ [] →
  messages (failed_turn clock err st) = messages st ++ [userMessage clock st]
  ∧ (onError err (handleSendMessage clock st).1).2
    = [MessageError ("发送消息失败: " +:+ err)]
  ∧ isTyping (failed_turn clock err st) = false
  ∧ (∀ st', messages (onError err st').1 = messages st')
  ∧ (∀ clock' ev st', e_type ev = "error" → onmessage clock' ev st' = st')
  ∧ (∀ es, Forall (λ e, switches e = false) es →
       messages (run es (failed_turn clock err st)).1 !! length (messages st)
       = Some (userMessage clock st)).
Proof.
  intros Hne.
  assert (Hs : truthy_str (trim (currentMessage st)) = true)
    by (destruct (trim (currentMessage st)); done).
  assert (Hm : messages (failed_turn clock err st)
               = messages st ++ [userMessage clock st]).
  { unfold failed_turn, handleSendMessage. by rewrite Hs. }
  repeat split; try done.
  { intros clock' ev st' Hev. unfold onmessage. by rewrite Hev. }
  intros es Hes. rewrite (messages_run es _ Hes), Hm.
  rewrite <- app_assoc. rewrite lookup_app_r by lia.
  by rewrite Nat.sub_diag.
Qed.

Lemma failed_send_keeps_user_turn_witness :
  messages (failed_turn clock0 "timeout of 30000ms exceeded" typed_hi)
  = messages typed_hi ++ [userMessage clock0 typed_hi].
Proof.
  refine (proj1 (failed_send_keeps_user_turn clock0
                   "timeout of 30000ms exceeded" typed_hi _)).
  discriminate.
Defined.

End FailedSendProps.

(** ** The preferred agent *)

Section PreferenceProps.
Import Chat ChatRuns Turns.

Lemma route_preferred (score : Router.Agent → Router.Request → Z)
    (registry : gmap string Router.Agent) (req : Router.Request)
    (i : string) (a : Router.Agent) :
  Router.preferred_agent_id req = Some i →
  registry !! i = Some a →
  Router.active a = true →
  Router.route score registry req = Ok a.
Proof. intros Hp Hi Ha. unfold Router.route. by rewrite Hp, Hi, Ha. Qed.

Lemma selectable_active (agents : list Agent) (i : string) :
  i ∈ selectable agents →
  ∃ agent, agent ∈ agents ∧ agent_ident agent = i ∧ is_active agent = true.
Proof.
  unfold selectable, agent_options. intros Hi.
  apply list_elem_of_fmap in Hi as (o & -> & Ho).
  apply list_elem_of_filter in Ho as [Hd Ho].
  apply list_elem_of_fmap in Ho as (agent & -> & Hagent).
  exists agent. simpl in *. repeat split; [done|].
  by destruct (is_active agent).
Qed.

Lemma best_of_elem (score : Router.Agent → Router.Request → Z)
    (req : Router.Request) (candidates : list Router.Agent) (a : Router.Agent) :
  Router.best_of score req candidates = Some a → a ∈ candidates.
Proof.
  unfold Router.best_of.
  assert (Hgen : ∀ l acc,
    foldl (λ best x, match best with
                     | None => Some x
                     | Some b => if Router.beats score req x b then Some x else Some b
                     end) acc l = Some a →
    acc = Some a ∨ a ∈ l).
  { induction l as [|x l IH]; intros acc Hf; [by left|].
    simpl in Hf. destruct (IH _ Hf) as [Hacc|Hin];
      [|right; by apply list_elem_of_further].
    destruct acc as [b|].
    - destruct (Router.beats score req x b).
      + injection Hacc as <-. right. apply list_elem_of_here.
      + by left.
    - injection Hacc as <-. right. apply list_elem_of_here. }
  intros Hf. by destruct (Hgen _ _ Hf).
Qed.

(** The router never selects an agent that is not active. *)
Lemma route_selects_active (score : Router.Agent → Router.Request → Z)
    (registry : gmap string Router.Agent) (req : Router.Request)
    (a : Router.Agent) :
  Router.route score registry req = Ok a → Router.active a = true.
Proof.
  unfold Router.route.
  set (candidates := filter (λ a, Router.active a = true) (map_to_list registry).*2).
  assert (Hscore : match Router.best_of score req candidates with
                   | Some a0 => Ok a0
                   | None => Err Router.NoEligibleAgent
                   end = Ok a → Router.active a = true).
  { destruct (Router.best_of score req candidates) as [b|] eqn:Hb; [|done].
    intros [= ->]. apply best_of_elem in Hb.
    by apply list_elem_of_filter in Hb as [Hact _]. }
  destruct (Router.preferred_agent_id req) as [i|]; [|done].
  destruct (registry !! i) as [b|]; [|done].
  destruct (Router.active b) eqn:Hb; [|done].
  by intros [= <-].
Qed.

(** C4. When the agent chosen in the picker is registered and active,
    the send carries its id unchanged on the socket and on the HTTP path
    alike, and the router selects that agent whatever the score function
    is; the picker lets only active agents be chosen. *)
Theorem preferred_agent_is_selected
    (score : Router.Agent → Router.Request → Z)
    (registry : gmap string Router.Agent)
    (clock : Clock) (st : State) (i : string) (a : Router.Agent) :
  trim (currentMessage st) ≠ [] →
  selectedAgent st = Some i →
  registry !! i = Some a →
  Router.active a = true →
  (ws_open (ws st) = true →
     (handleSendMessage clock st).2
     = [WsSend {| type := "chat";
                  data := {| message := trim (currentMessage st);
                             md_conversation_id := currentConversationId st;
                             preferred_agent_id := Some i |} |}])
  ∧ (ws_open (ws st) = false →
     (handleSendMessage clock st).2
     = [HttpPost "/chat/message"
          {| message := trim (currentMessage st);
             md_conversation_id := currentConversationId st;
             preferred_agent_id := Some i |}])
  ∧ Router.route score registry (Router.request_of (messageData st)) = Ok a
  ∧ (∀ agents j, j ∈ selectable agents →
       ∃ agent, agent ∈ agents ∧ agent_ident agent = j ∧ is_active agent = true).
Proof.
  intros Hne Hsel Hi Ha.
  assert (Hs : truthy_str (trim (currentMessage st)) = true)
    by (destruct (trim (currentMessage st)); done).
  split; [|split; [|split]].
  - intros Hopen. unfold handleSendMessage, messageData.
    by rewrite Hs, Hopen, Hsel.
  - intros Hclosed. unfold handleSendMessage, messageData.
    by rewrite Hs, Hclosed, Hsel.
  - by apply (route_preferred score registry _ i a).
  - intros agents j. apply selectable_active.
Qed.

Lemma preferred_agent_is_selected_witness :
  (handleSendMessage clock0 picked_inventory).2
  = [HttpPost "/chat/message"
       {| message := lit "hi"; md_conversation_id := None;
          preferred_agent_id := Some "inventory" |}]
  ∧ Router.route score0 registry0
      (Router.request_of (messageData picked_inventory)) = Ok inventory.
Proof.
  pose proof (preferred_agent_is_selected score0 registry0 clock0
                picked_inventory "inventory" inventory) as H.
  destruct H as (_ & Hsent & Hroute & _);
    [discriminate | reflexivity | reflexivity | reflexivity |].
  split; [exact (Hsent eq_refl) | exact Hroute].
Defined.

(** Without a preference the score decides. *)
Example route_by_score :
  Router.route score0 registry0
    {| Router.text := lit "hi"; Router.preferred_agent_id := None;
       Router.capability_hints := [] |} = Ok sales.
Proof. vm_compute. reflexivity. Qed.

(** A preference for an agent that is not active falls back to the score. *)
Example route_inactive_preference :
  Router.route score0
    (<["retired" := {| Router.id := "retired"; Router.name := "Old";
                      Router.capabilities := []; Router.active := false;
                      Router.in_flight := 0; Router.registered_at := 2 |}]> registry0)
    {| Router.text := lit "hi"; Router.preferred_agent_id := Some "retired";
       Router.capability_hints := [] |} = Ok sales.
Proof. vm_compute. reflexivity. Qed.

(** An inactive agent is shown disabled and cannot be chosen. *)
Example picker_sample :
  selectable [ {| agent_ident := "sales"; name := "Sales"; description := "";
                  is_active := true |};
               {| agent_ident := "retired"; name := "Old"; description := "";
                  is_active := false |} ] = ["sales"].
Proof. reflexivity. Qed.

End PreferenceProps.

(** ** The streaming parser *)

Section SplitProps.
Import StreamText.

Lemma split_nl_nonempty (s : jsstr) : split_nl s ≠ [].
Proof.
  induction s as [|c s IH]; simpl; [done|].
  destruct (c =? 10)%N; [done|]. by destruct (split_nl s).
Qed.

Lemma removelast_app_nonempty {A} (l1 l2 : list A) :
  l2 ≠ [] → removelast (l1 ++ l2) = l1 ++ removelast l2.
Proof. intros H. by apply removelast_app. Qed.

Lemma last_app_nonempty {A} (l1 l2 : list A) :
  l2 ≠ [] → last (l1 ++ l2) = last l2.
Proof.
  intros H. destruct l2 as [|x l2 _] using rev_ind; [done|].
  by rewrite app_assoc, !last_snoc.
Qed.

(** Splitting a concatenation: the complete lines of the first part, then
    the split of its remainder followed by the second part. *)
Lemma split_nl_app (a b : jsstr) :
  split_nl (a ++ b) = complete_lines a ++ split_nl (remainder a ++ b).
Proof.
  unfold complete_lines, remainder.
  induction a as [|c a IH]; [reflexivity|].
  cbn [app split_nl]. destruct (c =? 10)%N eqn:Hc.
  - rewrite IH. pose proof (split_nl_nonempty a) as Hne.
    destruct (split_nl a) as [|l ls]; [done|]. reflexivity.
  - rewrite IH. pose proof (split_nl_nonempty a) as Hne.
    destruct (split_nl a) as [|l ls]; [done|].
    destruct ls as [|l2 ls].
    + cbn. rewrite Hc. reflexivity.
    + reflexivity.
Qed.

Lemma complete_lines_app (a b : jsstr) :
  complete_lines (a ++ b) = complete_lines a ++ complete_lines (remainder a ++ b).
Proof.
  unfold complete_lines at 1 3. rewrite split_nl_app.
  apply removelast_app_nonempty, split_nl_nonempty.
Qed.

Lemma remainder_app (a b : jsstr) :
  remainder (a ++ b) = remainder (remainder a ++ b).
Proof.
  unfold remainder at 1 2. rewrite split_nl_app.
  by rewrite last_app_nonempty by apply split_nl_nonempty.
Qed.

Example split_sample :
  split_nl (lit "ab") = [lit "ab"]
  ∧ complete_lines [0x61; 0x0A; 0x0A; 0x62]%N = [[0x61%N]; []]
  ∧ remainder [0x61; 0x0A; 0x0A; 0x62]%N = [0x62%N].
Proof. repeat split. Qed.

End SplitProps.

Section StreamProps.
Import Api StreamText.
Context `{JSONParser}.

Lemma decode_app (d : TextDecoder) (a b : list Byte.byte) :
  decode d (a ++ b)
  = ((decode (decode d a).1 b).1, (decode d a).2 ++ (decode (decode d a).1 b).2).
Proof.
  revert d. induction a as [|x a IH]; intros d; simpl.
  - by destruct (decode d b).
  - destruct (decode_byte d x) as [d1 o1]. rewrite IH.
    destruct (decode d1 a) as [d2 o2]; simpl.
    by rewrite app_assoc.
Qed.

Lemma until_done_app (p1 p2 : list jsstr) :
  until_done (p1 ++ p2)
  = until_done p1 ++ (if done_seen p1 then [] else until_done p2).
Proof.
  induction p1 as [|p p1 IH]; simpl; [done|].
  destruct (is_done p); simpl; [done|]. by rewrite IH.
Qed.

Lemma done_seen_app (p1 p2 : list jsstr) :
  done_seen (p1 ++ p2) = done_seen p1 || done_seen p2.
Proof. apply existsb_app. Qed.

Lemma payloads_app (l1 l2 : list jsstr) :
  payloads (l1 ++ l2) = payloads l1 ++ payloads l2.
Proof. apply omap_app. Qed.

Lemma payloads_cons (line : jsstr) (lines : list jsstr) :
  payloads (line :: lines)
  = match payload_of line with
    | Some p => p :: payloads lines
    | None => payloads lines
    end.
Proof. reflexivity. Qed.

(** The line loop calls [onMessage] on the payloads before the marker, in
    order, and reports whether the marker was there. *)
Lemma for_lines_payloads (lines : list jsstr) (calls : list json) :
  for_lines lines calls
  = (calls ++ (chunk_of <$> until_done (payloads lines)),
     done_seen (payloads lines)).
Proof.
  revert calls. induction lines as [|line lines IH]; intros calls.
  - simpl. by rewrite app_nil_r.
  - cbn [for_lines]. rewrite payloads_cons. unfold payload_of.
    destruct (startsWith (lit "data: ") line); [|apply IH].
    cbn [until_done done_seen existsb]. unfold is_done.
    destruct (eqb_str (slice 6 line) (lit "[DONE]")).
    + simpl. by rewrite app_nil_r.
    + rewrite IH. simpl. by rewrite <- app_assoc.
Qed.

(** The read loop, fed with chunks, is the line loop run once on the
    whole text: [pre] is the text met so far, whose last, unfinished line
    waits in the buffer. *)
Lemma read_loop_text (chunks : list (list Byte.byte)) (d : TextDecoder)
    (pre : jsstr) (calls : list json) :
  done_seen (payloads (complete_lines pre)) = false →
  calls = chunk_of <$> until_done (payloads (complete_lines pre)) →
  read_loop (Value <$> chunks) d (remainder pre) calls
  = {| onMessage_calls :=
         chunk_of <$> until_done
           (payloads (complete_lines (pre ++ (decode d (concat chunks)).2)));
       settled := Resolved |}.
Proof.
  revert d pre calls.
  induction chunks as [|value chunks IH]; intros d pre calls Hgo Hcalls.
  - simpl. by rewrite app_nil_r, Hcalls.
  - cbn [fmap list_fmap read_loop concat]. rewrite decode_app.
    destruct (decode d value) as [d' text] eqn:Hdec. cbn [fst snd].
    unfold pop.
    change (removelast (split_nl (remainder pre ++ text)))
      with (complete_lines (remainder pre ++ text)).
    change (default [] (last (split_nl (remainder pre ++ text))))
      with (remainder (remainder pre ++ text)).
    rewrite for_lines_payloads, <- remainder_app.
    assert (Hpre : payloads (complete_lines (pre ++ text))
                   = payloads (complete_lines pre)
                     ++ payloads (complete_lines (remainder pre ++ text)))
      by (by rewrite complete_lines_app, payloads_app).
    assert (Hcalls' : calls ++ (chunk_of <$> until_done
                         (payloads (complete_lines (remainder pre ++ text))))
                      = chunk_of <$> until_done (payloads (complete_lines (pre ++ text)))).
    { rewrite Hpre, until_done_app, Hgo, fmap_app. by rewrite Hcalls. }
    rewrite Hcalls'.
    destruct (done_seen (payloads (complete_lines (remainder pre ++ text)))) eqn:Hfin.
    + assert (Hdone : done_seen (payloads (complete_lines (pre ++ text))) = true)
        by (by rewrite Hpre, done_seen_app, Hfin, orb_true_r).
      rewrite (app_assoc pre text), (complete_lines_app (pre ++ text)).
      by rewrite payloads_app, until_done_app, Hdone, app_nil_r.
    + rewrite (IH d' (pre ++ text)); [by rewrite app_assoc | |done].
      by rewrite Hpre, done_seen_app, Hgo, Hfin.
Qed.

(** The stream of a successful response, in closed form. *)
Lemma stream_text (chunks : list (list Byte.byte)) :
  stream (response_of chunks)
  = {| onMessage_calls :=
         chunk_of <$> until_done (payloads (complete_lines (text_of chunks)));
       settled := Resolved |}.
Proof.
  unfold stream, response_of, text_of. cbn [ok body negb].
  apply (read_loop_text chunks new_TextDecoder [] []); reflexivity.
Qed.

Lemma text_of_app (chunks more : list (list Byte.byte)) :
  ∃ rest, text_of (chunks ++ more) = text_of chunks ++ rest.
Proof.
  unfold text_of. rewrite concat_app, decode_app. cbn [snd]. eauto.
Qed.

(** C3. [onMessage] is called with the payloads of the [data: ] lines in
    the order in which those lines stand in the stream, up to the first
    ['[DONE]'], and the promise resolves. What has been delivered is never
    taken back or reordered by later reads, and once the marker has been
    read nothing that follows it is delivered. *)
Theorem stream_delivers_in_order_until_done (chunks : list (list Byte.byte)) :
  stream (response_of chunks)
  = {| onMessage_calls :=
         chunk_of <$> until_done (payloads (complete_lines (text_of chunks)));
       settled := Resolved |}
  ∧ (∀ more,
       onMessage_calls (stream (response_of chunks))
       `prefix_of` onMessage_calls (stream (response_of (chunks ++ more))))
  ∧ (∀ more,
       done_seen (payloads (complete_lines (text_of chunks))) = true →
       stream (response_of (chunks ++ more)) = stream (response_of chunks)).
Proof.
  split; [apply stream_text|]. split.
  - intros more. rewrite !stream_text. cbn [onMessage_calls].
    destruct (text_of_app chunks more) as [rest ->].
    rewrite complete_lines_app, payloads_app, until_done_app, fmap_app.
    by eexists.
  - intros more Hdone. rewrite !stream_text.
    destruct (text_of_app chunks more) as [rest ->].
    rewrite complete_lines_app, payloads_app, until_done_app, Hdone.
    by rewrite app_nil_r.
Qed.

(** C8. Two ways of cutting the same bytes into chunks give the same
    calls of [onMessage], in the same order, and the same settlement. *)
Theorem stream_independent_of_chunking (chunks1 chunks2 : list (list Byte.byte)) :
  concat chunks1 = concat chunks2 →
  stream (response_of chunks1) = stream (response_of chunks2).
Proof.
  intros Hsame. rewrite !stream_text. unfold text_of. by rewrite Hsame.
Qed.

End StreamProps.

Section StreamSamples.
Import Api StreamText.

Lemma stream_delivers_in_order_until_done_witness :
  @stream sample_parser (response_of sample_cut)
  = {| onMessage_calls := [JStr [0x6839%N; 0x636E%N]; JStr (lit "plain")];
       settled := Resolved |}.
Proof.
  exact (proj1 (@stream_delivers_in_order_until_done sample_parser sample_cut)).
Defined.

Lemma stream_independent_of_chunking_witness :
  @stream sample_parser (response_of sample_cut)
  = @stream sample_parser (response_of [sample_body]).
Proof.
  apply (@stream_independent_of_chunking sample_parser sample_cut [sample_body]).
  reflexivity.
Defined.

(** The decoder puts a character together from bytes of two reads. *)
Example decode_across_reads :
  let '(d1, t1) := decode new_TextDecoder (take 2 (bytes "根")) in
  let '(d2, t2) := decode d1 (drop 2 (bytes "根")) in
  t1 = [] ∧ t2 = [0x6839%N].
Proof. vm_compute. done. Qed.

(** A line without a final line feed is never delivered. *)
Example unfinished_line_is_dropped :
  onMessage_calls (@stream sample_parser (response_of [bytes "data: tail"])) = [].
Proof. vm_compute. reflexivity. Qed.

(** [stream] goes through [fetch], not through the axios instance: a
    response that is not [ok] only rejects the promise. *)
Example stream_http_error :
  @stream sample_parser
    (Fulfilled {| ok := false; status := 401; statusText := "Unauthorized";
                  body := None |})
  = {| onMessage_calls := [];
       settled := Rejected (HttpError 401 "Unauthorized") |}.
Proof. reflexivity. Qed.

(** A failed read rejects the promise; what was delivered stays delivered. *)
Example read_error_rejects :
  @read_loop sample_parser
    [Value (bytes "data: a" ++ [Byte.x0a]); ReadError "aborted"; Value (bytes "data: b" ++ [Byte.x0a])]
    new_TextDecoder [] []
  = {| onMessage_calls := [JStr (lit "a")]; settled := Rejected (Thrown "aborted") |}.
Proof. vm_compute. reflexivity. Qed.

End StreamSamples.

(** ** Task graphs with a cycle *)

Section DecomposerProps.
Import Decomposer EngineSamples.

Lemma cycle_successor {A} (R : relation A) (a : A) :
  tc R a a → ∃ b, R a b ∧ tc R b b.
Proof.
  intros Hc. inversion Hc as [? ? Haa | ? b ? Hab Hba]; subst.
  - exists a. split; [done|]. by apply tc_once.
  - exists b. split; [done|]. by eapply tc_r.
Qed.

Lemma unique_ids (g : list Task) (t t' : Task) :
  NoDup (ids g) → t ∈ g → t' ∈ g → id t = id t' → t = t'.
Proof.
  unfold ids. induction g as [|x g IH]; intros Hnd Ht Ht' Hid.
  - by apply elem_of_nil in Ht.
  - rewrite fmap_cons in Hnd. apply NoDup_cons in Hnd as [Hx Hnd].
    apply elem_of_cons in Ht as [->|Ht]; apply elem_of_cons in Ht' as [->|Ht'].
    + done.
    + exfalso. apply Hx. rewrite Hid. by apply list_elem_of_fmap_2.
    + exfalso. apply Hx. rewrite <- Hid. by apply list_elem_of_fmap_2.
    + by apply IH.
Qed.

Lemma eligible_deps (done : list nat) (t : Task) (d : nat) :
  eligible done t = true → d ∈ deps t → d ∈ done.
Proof.
  unfold eligible. rewrite forallb_forall. intros Hall Hd.
  apply list_elem_of_In in Hd. apply Hall in Hd. by apply bool_decide_eq_true in Hd.
Qed.

Section Graph.
Variable g : list Task.
Hypothesis unique : NoDup (ids g).

Lemma sound_round (pending : list Task) (done : list nat) :
  sound g pending done →
  sound g (filter (λ t, eligible done t = false) pending)
          (done ++ ids (filter (λ t, eligible done t = true) pending)).
Proof.
  intros (Hdone & Hall & Hsub). split; [|split].
  - intros d Hd Hcyc. apply elem_of_app in Hd as [Hd|Hd]; [by apply (Hdone d)|].
    apply list_elem_of_fmap in Hd as (t & -> & Ht).
    apply list_elem_of_filter in Ht as [Hel Ht].
    destruct (cycle_successor _ _ Hcyc) as (b & (t' & Ht' & Hid & Hb) & Hbb).
    assert (t' = t) as -> by (apply (unique_ids g); auto).
    apply (Hdone b); [|done]. by apply (eligible_deps done t).
  - intros t Ht. destruct (Hall t Ht) as [Hp|Hd].
    + destruct (eligible done t) eqn:Hel.
      * right. apply elem_of_app. right.
        apply list_elem_of_fmap_2. by apply list_elem_of_filter.
      * left. by apply list_elem_of_filter.
    + right. apply elem_of_app. by left.
  - intros t Ht. apply list_elem_of_filter in Ht as [_ Ht]. by apply Hsub.
Qed.

Lemma schedule_acyclic (fuel : nat) (pending : list Task) (done order : list nat) :
  sound g pending done →
  schedule fuel pending done = Some order →
  ∀ t, t ∈ g → ¬ tc (depends g) (id t) (id t).
Proof.
  revert pending done. induction fuel as [|fuel IH]; intros pending done Hs Hrun.
  - destruct pending as [|p pending]; [|discriminate].
    destruct Hs as (Hdone & Hall & _). intros t Ht.
    destruct (Hall t Ht) as [Hp|Hd]; [by apply elem_of_nil in Hp|by apply Hdone].
  - destruct pending as [|p pending].
    + destruct Hs as (Hdone & Hall & _). intros t Ht.
      destruct (Hall t Ht) as [Hp|Hd]; [by apply elem_of_nil in Hp|by apply Hdone].
    + pose proof (sound_round _ _ Hs) as Hs'.
      cbn [schedule] in Hrun.
      destruct (filter (λ t, eligible done t = true) (p :: pending)) eqn:Hready;
        [discriminate|].
      by apply (IH _ _ Hs').
Qed.

End Graph.

(** The converse: the scheduler gets through every well-formed graph
    without a cycle, so only malformed and cyclic graphs are rejected. *)

Lemma ineligible_dep (done : list nat) (t : Task) :
  eligible done t = false → ∃ d, d ∈ deps t ∧ d ∉ done.
Proof.
  unfold eligible. induction (deps t) as [|d ds IH]; simpl; [discriminate|].
  destruct (bool_decide (d ∈ done)) eqn:Hd; simpl.
  - intros Hds. destruct (IH Hds) as (d' & Hd' & Hnot).
    exists d'. split; [by apply list_elem_of_further|done].
  - intros _. exists d. split; [apply list_elem_of_here|].
    by apply bool_decide_eq_false in Hd.
Qed.

Lemma well_formed_deps (g : list Task) (t : Task) (d : nat) :
  well_formed g = true → t ∈ g → d ∈ deps t → d ∈ ids g.
Proof.
  intros Hwf Ht Hd. apply andb_prop in Hwf as [_ Hall].
  rewrite forallb_forall in Hall.
  apply list_elem_of_In, Hall in Ht. rewrite forallb_forall in Ht.
  apply list_elem_of_In, Ht in Hd. by apply bool_decide_eq_true in Hd.
Qed.

Lemma reachable_known (g : list Task) (a b : nat) :
  well_formed g = true → tc (depends g) a b → b ∈ ids g.
Proof.
  intros Hwf. induction 1 as [a b (t & Ht & _ & Hb)|a c b _ _ IH]; [|done].
  by apply (well_formed_deps g t).
Qed.

Lemma stuck_has_cycle (g pending : list Task) (done : list nat) (t : Task) :
  well_formed g = true →
  (∀ a, ¬ tc (depends g) a a) →
  sound g pending done →
  (∀ t', t' ∈ pending → eligible done t' = false) →
  t ∈ pending → False.
Proof.
  intros Hwf Hacyc (_ & Hall & Hsub) Hstuck.
  assert (Hsn : sn (depends g) (id t)).
  { apply tc_finite_sn; [intros a; apply Hacyc|].
    exists (ids g). intros b. by apply reachable_known. }
  remember (id t) as a eqn:Ha. revert t Ha.
  induction Hsn as [a _ IH]. intros t -> Ht.
  destruct (ineligible_dep done t (Hstuck t Ht)) as (d & Hd & Hnot).
  pose proof (well_formed_deps g t d Hwf (Hsub t Ht) Hd) as Hknown.
  apply list_elem_of_fmap in Hknown as (t' & -> & Ht').
  destruct (Hall t' Ht') as [Hp|Hdone]; [|done].
  apply (IH (id t')) with t'; [|done|done].
  exists t. auto.
Qed.

Lemma schedule_total (g : list Task) (fuel : nat) (pending : list Task)
    (done : list nat) :
  well_formed g = true →
  (∀ a, ¬ tc (depends g) a a) →
  sound g pending done →
  (length pending ≤ fuel)%nat →
  is_Some (schedule fuel pending done).
Proof.
  intros Hwf Hacyc. revert pending done.
  induction fuel as [|fuel IH]; intros pending done Hs Hlen.
  - destruct pending; [by eexists|simpl in Hlen; lia].
  - destruct pending as [|p pending]; [by eexists|].
    cbn [schedule].
    destruct (filter (λ t, eligible done t = true) (p :: pending))
      as [|r ready] eqn:Hready.
    + exfalso. apply (stuck_has_cycle g (p :: pending) done p Hwf Hacyc Hs).
      * intros t' Ht'. destruct (eligible done t') eqn:Hel; [|done].
        exfalso. by apply (filter_nil_not_elem_of _ _ t' Hready).
      * apply list_elem_of_here.
    + rewrite <- Hready. apply IH.
      * apply sound_round; [|done].
        apply andb_prop in Hwf as [Hnd _]. by apply bool_decide_eq_true in Hnd.
      * assert (Hr : r ∈ filter (λ t, eligible done t = true) (p :: pending))
          by (rewrite Hready; apply list_elem_of_here).
        apply list_elem_of_filter in Hr as [Hel Hr].
        assert (Hlt : (length (filter (λ t, eligible done t = false) (p :: pending))
                       < length (p :: pending))%nat).
        { apply (length_filter_lt _ _ r); [done|]. simpl. by rewrite Hel. }
        simpl in Hlt, Hlen. lia.
Qed.

Lemma decompose_acyclic (g : list Task) :
  well_formed g = true → ¬ has_cycle g → ∃ order, decompose g = Ok order.
Proof.
  intros Hwf Hacyc. unfold decompose. rewrite Hwf. cbn [negb].
  destruct (schedule_total g (length g) g [] Hwf) as [order ->]; [| |lia|eauto].
  - intros a Ha. apply Hacyc. by exists a.
  - split; [|split]; [intros d Hd; by apply elem_of_nil in Hd | auto | auto].
Qed.

Lemma decompose_cyclic (g : list Task) :
  has_cycle g → decompose g = Err InvalidDecomposition.
Proof.
  intros (a & Hcyc). unfold decompose.
  destruct (well_formed g) eqn:Hwf; [|done]. cbn [negb].
  destruct (schedule (length g) g []) as [order|] eqn:Hrun; [|done].
  exfalso.
  apply andb_prop in Hwf as [Hnd _]. apply bool_decide_eq_true in Hnd.
  destruct (cycle_successor _ _ Hcyc) as (b & (t & Ht & <- & _) & _).
  refine (schedule_acyclic g Hnd _ g [] order _ Hrun t Ht Hcyc).
  split; [|split]; [intros d Hd; by apply elem_of_nil in Hd | auto | auto].
Qed.

(** C6. A task graph with a cycle is rejected with
    [InvalidDecomposition] at decomposition, and none of its tasks is
    run; the submission returns. *)
Theorem cyclic_graph_is_rejected (exec : nat → bool) (g : list Task) :
  has_cycle g →
  decompose g = Err InvalidDecomposition
  ∧ submit exec g = {| outcome := Err InvalidDecomposition; executed := [] |}.
Proof.
  intros Hcyc. pose proof (decompose_cyclic g Hcyc) as Hdec.
  split; [done|]. unfold submit. by rewrite Hdec.
Qed.

Lemma deadlocked_has_cycle : has_cycle deadlocked.
Proof.
  exists 1. apply tc_l with 2; [|apply tc_once].
  - eexists. split; [apply list_elem_of_here|]. split; [reflexivity|].
    apply list_elem_of_here.
  - eexists. split; [apply list_elem_of_further, list_elem_of_here|].
    split; [reflexivity|]. apply list_elem_of_here.
Defined.

Lemma cyclic_graph_is_rejected_witness :
  submit (λ _, true) deadlocked
  = {| outcome := Err InvalidDecomposition; executed := [] |}.
Proof.
  exact (proj2 (cyclic_graph_is_rejected (λ _, true) deadlocked deadlocked_has_cycle)).
Defined.

(** A graph without a cycle is accepted and run in dependency order; a
    task whose dependency failed is marked failed without being run, and
    the failure of a required task fails the whole with the partial
    results. *)
Example quarterly_runs :
  submit (λ _, true) quarterly
  = {| outcome := Ok [(1, true); (2, true); (3, true)]; executed := [1; 2; 3] |}
  ∧ submit (λ i, negb (i =? 2)%nat) quarterly
    = {| outcome := Err (TaskFailed [(1, true); (2, false); (3, false)]);
         executed := [1; 2] |}
  ∧ submit (λ i, negb (i =? 2)%nat) (take 2 quarterly)
    = {| outcome := Ok [(1, true); (2, false)]; executed := [1; 2] |}.
Proof. repeat split; vm_compute; reflexivity. Qed.

End DecomposerProps.

(** ** Tool calls that time out *)

Section ToolBridgeProps.
Import ToolBridge EngineSamples.

(** C7. A dispatched tool call that takes longer than the timeout of its
    caller returns [ToolTimeout]; the bridge has sent it to the provider
    once and does not send it again. *)
Theorem timed_out_call_is_not_retried (world : Call → nat * Reply)
    (c : Call) (br : Bridge) (p : Provider) :
  providers br !! provider c = Some p →
  healthy p = true →
  timeout c < (world c).1 →
  (call_tool world c br).2 = Err ToolTimeout
  ∧ dispatched (call_tool world c br).1 = dispatched br ++ [c]
  ∧ providers (call_tool world c br).1 = providers br.
Proof.
  intros Hp Hh Hlate. unfold call_tool. rewrite Hp, Hh. cbn [negb].
  destruct (world c) as [duration reply]. cbn [fst] in Hlate.
  apply Nat.ltb_lt in Hlate. by rewrite Hlate.
Qed.

Lemma timed_out_call_is_not_retried_witness :
  (call_tool slow_world analyze_sales bridge0).2 = Err ToolTimeout
  ∧ dispatched (call_tool slow_world analyze_sales bridge0).1 = [analyze_sales]
  ∧ providers (call_tool slow_world analyze_sales bridge0).1 = providers bridge0.
Proof.
  apply (timed_out_call_is_not_retried slow_world analyze_sales bridge0 walmart_tools).
  - reflexivity.
  - reflexivity.
  - simpl. lia.
Defined.

(** A call that returns in time gives the provider's result, and a call
    to a provider that failed two probes in a row is not dispatched. *)
Example call_tool_samples :
  (call_tool (λ _, (1, Returned (lit "ok"))) analyze_sales bridge0).2 = Ok (lit "ok")
  ∧ call_tool slow_world analyze_sales
      (probe "walmart_tools" false (probe "walmart_tools" false bridge0))
    = (probe "walmart_tools" false (probe "walmart_tools" false bridge0),
       Err (ToolError "provider unhealthy")).
Proof. split; vm_compute; reflexivity. Qed.

End ToolBridgeProps.

(** ** More on the authentication store and the API service *)

Section AuthActionsProps.
Import AuthStore Api AuthActions.

Lemma set_in_sync (f : AuthState → AuthState) (b : Browser) : in_sync (set f b).
Proof.
  intros item. unfold set. cbn [localStorage auth]. unfold storage_name.
  rewrite lookup_insert_eq. by intros [= <-].
Qed.

Lemma set_other_keys (f : AuthState → AuthState) (b : Browser) (k : string) :
  k ≠ "auth-storage" → localStorage (set f b) !! k = localStorage b !! k.
Proof. intros Hk. unfold set, storage_name. cbn. by rewrite lookup_insert_ne. Qed.

Lemma act_in_sync (a : Action) (b : Browser) : in_sync b → in_sync (act a b).
Proof.
  intros Hb. destruct a; cbn [act]; try apply set_in_sync.
  - intros item. by rewrite localStorage_logout.
  - unfold updateUser. destruct (user (auth b)); [apply set_in_sync|done].
Qed.

Lemma act_other_keys (a : Action) (b : Browser) (k : string) :
  k ≠ "auth-storage" → localStorage (act a b) !! k = localStorage b !! k.
Proof.
  intros Hk. destruct a; cbn [act]; try by apply set_other_keys.
  - unfold logout, removeItem. cbn [localStorage].
    rewrite lookup_delete_ne by done. by apply set_other_keys.
  - unfold updateUser. destruct (user (auth b)); [by apply set_other_keys|done].
Qed.

(** X1. Through any sequence of store actions the ['auth-storage'] entry,
    when there is one, is the partialized current state, and no other key
    of [localStorage] is ever written or removed. *)
Theorem auth_storage_stays_in_sync (l : list Action) (b : Browser) :
  in_sync b →
  in_sync (acts l b)
  ∧ (∀ k, k ≠ "auth-storage" → localStorage (acts l b) !! k = localStorage b !! k).
Proof.
  unfold acts. revert b. induction l as [|a l IH]; intros b Hb; [done|].
  cbn [foldl]. destruct (IH (act a b) (act_in_sync a b Hb)) as [Hs Hk].
  split; [done|]. intros k Hne. rewrite (Hk k Hne). by apply act_other_keys.
Qed.

Lemma auth_storage_stays_in_sync_witness :
  in_sync (acts [Login "t" "r" alice; SetLoading true; UpdateUser no_fields] fresh).
Proof.
  refine (proj1 (auth_storage_stays_in_sync
                   [Login "t" "r" alice; SetLoading true; UpdateUser no_fields]
                   fresh _)).
  intros item Hitem. unfold fresh in Hitem. cbn [localStorage] in Hitem.
  rewrite lookup_empty in Hitem. discriminate Hitem.
Defined.

(** X2. [updateUser] never touches the token, the refresh token, the
    authentication flag or the loading flag, and never creates or drops
    the user; with nobody logged in it changes nothing at all, not even
    the persisted entry, and an update without fields leaves the state as
    it is. *)
Theorem updateUser_keeps_session (userData : PartialUser) (b : Browser) :
  token (auth (updateUser userData b)) = token (auth b)
  ∧ refreshToken (auth (updateUser userData b)) = refreshToken (auth b)
  ∧ isAuthenticated (auth (updateUser userData b)) = isAuthenticated (auth b)
  ∧ isLoading (auth (updateUser userData b)) = isLoading (auth b)
  ∧ (is_Some (user (auth (updateUser userData b))) ↔ is_Some (user (auth b)))
  ∧ (user (auth b) = None → updateUser userData b = b)
  ∧ auth (updateUser no_fields b) = auth b.
Proof.
  unfold updateUser. destruct (auth b) as [u t r a l] eqn:Hb.
  cbn [user]. destruct u as [u|].
  - cbn. rewrite Hb. cbn. repeat split; try done; try (by eexists).
    by destruct u.
  - rewrite Hb. repeat split; done.
Qed.

(** X3. The request interceptor overwrites [X-Request-ID] with the new
    id, sets [Authorization] to the bearer token exactly when the token is
    a non-empty string, and leaves every other header as it was. *)
Theorem request_interceptor_headers (rid : string) (b : Browser)
    (headers : gmap string string) :
  request_interceptor rid b headers !! "X-Request-ID" = Some rid
  ∧ request_interceptor rid b headers !! "Authorization"
    = (if truthy_opt (token (auth b))
       then (λ t, "Bearer " +:+ t) <$> token (auth b)
       else headers !! "Authorization")
  ∧ (∀ k, k ≠ "X-Request-ID" → k ≠ "Authorization" →
       request_interceptor rid b headers !! k = headers !! k).
Proof.
  unfold request_interceptor. split; [apply lookup_insert_eq|]. split.
  - rewrite lookup_insert_ne by done.
    destruct (token (auth b)) as [t|]; cbn [truthy_opt fmap option_fmap option_map]; [|done].
    destruct (truthy_string t); [apply lookup_insert_eq|done].
  - intros k Hk1 Hk2. rewrite lookup_insert_ne by done.
    destruct (token (auth b)) as [t|]; [|done].
    destruct (truthy_string t); [by rewrite lookup_insert_ne|done].
Qed.

(** X4. After a successful login the store is authenticated, the entry
    persisted is that of the new session, the location is ['/dashboard'],
    and the next request of either kind carries the access token just
    received; an empty access token still counts as logged in but is not
    sent. *)
Theorem login_token_is_sent (response : LoginResponse) (b : Browser)
    (rid : string) (headers : gmap string string) :
  let b' := login_onSuccess response b in
  isAuthenticated (auth b') = true
  ∧ token (auth b') = Some (access_token response)
  ∧ localStorage b' !! "auth-storage" = Some (AuthEntry (partialize (auth b')))
  ∧ location_href b' = "/dashboard"
  ∧ request_interceptor rid b' headers !! "Authorization"
    = (if truthy_string (access_token response)
       then Some ("Bearer " +:+ access_token response)
       else headers !! "Authorization")
  ∧ stream_authorization b'
    = (if truthy_string (access_token response)
       then "Bearer " +:+ access_token response else "").
Proof.
  intros b'. subst b'. unfold login_onSuccess.
  cbn [set_location_href message_success auth localStorage location_href].
  split; [done|]. split; [done|]. split.
  { unfold login, set, storage_name. cbn. apply lookup_insert_eq. }
  split; [done|]. split.
  - unfold request_interceptor. cbn [auth set_location_href message_success].
    rewrite lookup_insert_ne by done.
    unfold login, set. cbn [auth token].
    destruct (truthy_string (access_token response)); [apply lookup_insert_eq|done].
  - unfold stream_authorization. by cbn.
Qed.

(** X5. An error response whose status is not 401, and an error without
    a response, leave the session alone: the state of the store, all of
    [localStorage] and the location are unchanged. *)
Theorem only_401_ends_the_session (error : AxiosError) (b : Browser) :
  (∀ data, response error ≠ Some (401%N, data)) →
  auth (response_error_interceptor error b) = auth b
  ∧ localStorage (response_error_interceptor error b) = localStorage b
  ∧ location_href (response_error_interceptor error b) = location_href b.
Proof.
  intros Hnot. unfold response_error_interceptor.
  destruct (response error) as [[status data]|] eqn:Hr.
  - destruct (status =? 401)%N eqn:H401.
    { apply N.eqb_eq in H401. subst. by destruct (Hnot data). }
    repeat match goal with |- context [if ?c then _ else _] => destruct c end;
      done.
  - by destruct (request error).
Qed.

Lemma only_401_ends_the_session_witness :
  auth (response_error_interceptor forbidden (login "t" "r" alice fresh))
  = auth (login "t" "r" alice fresh).
Proof.
  refine (proj1 (only_401_ends_the_session forbidden (login "t" "r" alice fresh) _)).
  intros data. discriminate.
Defined.

Lemma default_error_text_nonempty (data : option ErrorData) :
  default_error_text data ≠ "".
Proof.
  unfold default_error_text. destruct data as [[d m]|]; [|done]. cbn.
  destruct d as [d|]; cbn.
  - destruct d; cbn; [|done]. destruct m as [[|]|]; done.
  - destruct m as [[|]|]; done.
Qed.

Lemma interceptor_toast (error : AxiosError) (b : Browser) :
  ∃ text, text ≠ ""
          ∧ toasts (response_error_interceptor error b) = toasts b ++ [text].
Proof.
  unfold response_error_interceptor.
  destruct (response error) as [[status data]|].
  - repeat match goal with |- context [if ?c then _ else _] => destruct c end;
      try (eexists; split; [|reflexivity]; done).
    eexists; split; [apply (default_error_text_nonempty data)|reflexivity].
  - destruct (request error); eexists; (split; [|reflexivity]); done.
Qed.

(** X6. Every error that reaches the response interceptor puts exactly
    one notification on the screen, after those already there, and its
    text is never empty. *)
Theorem every_error_is_reported_once (error : AxiosError) (b : Browser) :
  ∃ text, text ≠ ""
          ∧ toasts (response_error_interceptor error b) = toasts b ++ [text].
Proof. apply interceptor_toast. Qed.

(** X7. A rejected login shows two notifications, the interceptor's and
    then the page's own, whose text is the server's [detail] when there is
    one; when the status is 401 the visitor is, on top, logged out and
    sent to ['/login']. *)
Theorem rejected_login_is_reported_twice (error : AxiosError) (b : Browser) :
  (∃ text, toasts (login_rejected error b)
           = toasts b ++ [text; login_error_text error])
  ∧ login_error_text error ≠ ""
  ∧ (∀ data, response error = Some (401%N, data) →
       isAuthenticated (auth (login_rejected error b)) = false
       ∧ localStorage (login_rejected error b) !! "auth-storage" = None
       ∧ location_href (login_rejected error b) = "/login").
Proof.
  split; [|split].
  - destruct (interceptor_toast error b) as (text & _ & Ht).
    exists text. unfold login_rejected, login_onError, message_error.
    cbn [toasts]. rewrite Ht. by rewrite <- app_assoc.
  - unfold login_error_text. destruct (response error) as [[s [[d m]|]]|]; try done.
    cbn. destruct d as [[|]|]; done.
  - intros data Hr. unfold login_rejected, login_onError, message_error.
    cbn [auth localStorage location_href].
    unfold response_error_interceptor. rewrite Hr. cbn.
    split; [done|]. split; [|done]. apply lookup_delete_eq.
Qed.

End AuthActionsProps.

(** ** More on the chat page *)

Section TrimProps.

Lemma trimStart_head (s : jsstr) (c : N) :
  head (trimStart s) = Some c → is_whitespace c = false.
Proof.
  induction s as [|x s IH]; simpl; [discriminate|].
  destruct (is_whitespace x) eqn:Hx; [done|]. simpl. by intros [= <-].
Qed.

Lemma trimStart_suffix (s : jsstr) : trimStart s `suffix_of` s.
Proof.
  induction s as [|x s IH]; simpl; [done|].
  destruct (is_whitespace x); [by apply suffix_cons_r|done].
Qed.

Lemma trimStart_fixed (s : jsstr) :
  (∀ c, head s = Some c → is_whitespace c = false) → trimStart s = s.
Proof.
  destruct s as [|x s]; simpl; [done|]. intros H. by rewrite (H x eq_refl).
Qed.

Lemma head_rev {A} (l : list A) : head (rev l) = last l.
Proof.
  destruct l as [|x l _] using rev_ind; [done|].
  by rewrite rev_app_distr, last_snoc.
Qed.

Lemma trimEnd_last (s : jsstr) (c : N) :
  last (trimEnd s) = Some c → is_whitespace c = false.
Proof.
  unfold trimEnd. rewrite <- head_rev, rev_involutive. apply trimStart_head.
Qed.

Lemma trimEnd_prefix (s : jsstr) : trimEnd s `prefix_of` s.
Proof.
  unfold trimEnd. destruct (trimStart_suffix (rev s)) as [k Hk].
  exists (rev k). apply (f_equal (@rev N)) in Hk.
  by rewrite rev_involutive, rev_app_distr in Hk.
Qed.

Lemma trim_head (s : jsstr) (c : N) :
  head (trim s) = Some c → is_whitespace c = false.
Proof.
  unfold trim. destruct (trimEnd_prefix (trimStart s)) as [k Hk].
  intros Hc. apply (trimStart_head s c). rewrite Hk.
  by destruct (trimEnd (trimStart s)).
Qed.

Lemma trim_last (s : jsstr) (c : N) :
  last (trim s) = Some c → is_whitespace c = false.
Proof. apply trimEnd_last. Qed.

Lemma trim_trim (s : jsstr) : trim (trim s) = trim s.
Proof.
  unfold trim at 1. rewrite (trimStart_fixed (trim s)) by apply trim_head.
  unfold trimEnd. rewrite (trimStart_fixed (rev (trim s))).
  - apply rev_involutive.
  - intros c. rewrite head_rev. apply trim_last.
Qed.

End TrimProps.

Section ChatMoreProps.
Import Chat ChatRuns ChatKeys.

(** X8. The text of the user's message never begins or ends with white
    space, trimming it again changes nothing, and it is the very text
    that goes on the wire. *)
Theorem user_message_is_trimmed (clock : Clock) (st : State) :
  (∀ c, head (content (userMessage clock st)) = Some c → is_whitespace c = false)
  ∧ (∀ c, last (content (userMessage clock st)) = Some c → is_whitespace c = false)
  ∧ trim (content (userMessage clock st)) = content (userMessage clock st)
  ∧ message (messageData st) = content (userMessage clock st).
Proof.
  cbn [userMessage content messageData message].
  split; [apply trim_head|]. split; [apply trim_last|].
  split; [apply trim_trim|done].
Qed.

(** X9. A send empties the input, so sending again straight away does
    nothing: no second message, no second request. *)
Theorem send_cannot_be_repeated (clock clock' : Clock) (st : State) :
  handleSendMessage clock' (handleSendMessage clock st).1
  = ((handleSendMessage clock st).1, [])
  ∧ trim (currentMessage (handleSendMessage clock st).1) = [].
Proof.
  unfold handleSendMessage at 2 3 4.
  destruct (truthy_str (trim (currentMessage st))) eqn:Hs; cbn [negb fst].
  - split; reflexivity.
  - split.
    + unfold handleSendMessage. by rewrite Hs.
    + by destruct (trim (currentMessage st)).
Qed.

Lemma requests_app (out1 out2 : list Effect) :
  requests (out1 ++ out2) = requests out1 ++ requests out2.
Proof. apply omap_app. Qed.

Lemma requests_step (e : Event) (st : State) :
  message <$> requests (step e st).2
  = content <$> filter (λ m, is_user m = true) (constructed e st).
Proof.
  destruct e; try reflexivity.
  - cbn [step constructed]. unfold handleSendMessage.
    destruct (truthy_str (trim (currentMessage st))); cbn [negb snd]; [|done].
    by destruct (ws_open (ws st)).
  - cbn [step constructed snd]. by destruct (String.eqb (e_type ev) "message").
Qed.

Lemma requests_run (es : list Event) (st : State) :
  message <$> requests (run es st).2
  = content <$> filter (λ m, is_user m = true) (appended es st).
Proof.
  revert st. induction es as [|e es IH]; intros st; [done|].
  cbn [run appended]. pose proof (requests_step e st) as Hstep.
  specialize (IH (step e st).1).
  destruct (step e st) as [st1 out1]. cbn [fst snd] in *.
  destruct (run es st1) as [st2 out2]. cbn [fst snd] in *.
  by rewrite requests_app, filter_app, !fmap_app, Hstep, IH.
Qed.

(** X10. Along a run that stays in one conversation, what went on the
    wire and what the list shows of the user agree: the texts of the
    requests sent, over the socket or over HTTP, are the texts of the
    user messages added to the list, one for one and in the same order. *)
Theorem requests_match_user_messages (es : list Event) (st : State) :
  Forall (λ e, switches e = false) es →
  message <$> requests (run es st).2
  = content <$> filter (λ m, is_user m = true)
                  (drop (length (messages st)) (messages (run es st).1)).
Proof.
  intros Hes. rewrite (messages_run es st Hes), drop_app_length.
  apply requests_run.
Qed.

Lemma requests_match_user_messages_witness :
  message <$> requests
    (run [Send clock0; HttpOk reply0; Typed (lit "more "); Send clock0] typed_hi).2
  = [lit "hi"; lit "more"].
Proof.
  refine (requests_match_user_messages
            [Send clock0; HttpOk reply0; Typed (lit "more "); Send clock0]
            typed_hi _).
  repeat constructor.
Defined.

Lemma conversation_id_step (e : Event) (st : State) :
  readdresses e = false →
  currentConversationId (step e st).1 = currentConversationId st
  ∧ Forall (λ d, md_conversation_id d = currentConversationId st)
      (requests (step e st).2).
Proof.
  destruct e; cbn [readdresses]; try discriminate; intros _;
    try (split; [reflexivity|constructor]).
  - cbn [step]. unfold handleSendMessage.
    destruct (truthy_str (trim (currentMessage st))); cbn [negb fst snd];
      [|split; [reflexivity|constructor]].
    split; [reflexivity|]. destruct (ws_open (ws st)); by repeat constructor.
  - cbn [step fst snd]. split; [|constructor]. unfold onmessage.
    destruct (String.eqb (e_type ev) "message"); [done|].
    by destruct (_ && _).
Qed.

(** X11. The conversation id changes only when a conversation is loaded,
    the chat is cleared, or an HTTP reply comes back. Through all other
    events, messages arriving on the socket among them, it stays what it
    was, and every request sent meanwhile carries that same id. *)
Theorem socket_never_sets_conversation_id (es : list Event) (st : State) :
  Forall (λ e, readdresses e = false) es →
  currentConversationId (run es st).1 = currentConversationId st
  ∧ Forall (λ d, md_conversation_id d = currentConversationId st)
      (requests (run es st).2).
Proof.
  intros Hes. revert st. induction Hes as [|e es He _ IH]; intros st.
  - split; [done|constructor].
  - cbn [run]. destruct (conversation_id_step e st He) as [Hid Hreq].
    destruct (IH (step e st).1) as [Hid' Hreq'].
    destruct (step e st) as [st1 out1]. cbn [fst snd] in *.
    destruct (run es st1) as [st2 out2]. cbn [fst snd] in *.
    split; [congruence|]. rewrite requests_app. apply Forall_app. split; [done|].
    eapply Forall_impl; [exact Hreq'|]. cbn. intros d Hd. congruence.
Qed.

Lemma socket_never_sets_conversation_id_witness :
  Forall (λ d, md_conversation_id d = None)
    (requests (run [WsOpened socket0; Send clock0; WsReceived clock0 pushed0;
                    Typed (lit "again"); Send clock0] typed_hi).2).
Proof.
  refine (proj2 (socket_never_sets_conversation_id
                   [WsOpened socket0; Send clock0; WsReceived clock0 pushed0;
                    Typed (lit "again"); Send clock0] typed_hi _)).
  repeat constructor.
Defined.

Lemma selectedAgent_step (e : Event) (st : State) :
  is_picked e = false → selectedAgent (step e st).1 = selectedAgent st.
Proof.
  destruct e; cbn [is_picked]; try discriminate; intros _; try reflexivity.
  - cbn [step]. unfold handleSendMessage.
    by destruct (truthy_str (trim (currentMessage st))).
  - cbn [step fst]. unfold onmessage.
    destruct (String.eqb (e_type ev) "message"); [done|]. by destruct (_ && _).
Qed.

(** X12. The agent chosen in the picker is changed by the picker alone:
    it survives sends, replies, failures, and loading or clearing a
    conversation, so the next send in the new conversation still names
    it. *)
Theorem chosen_agent_survives (es : list Event) (st : State) :
  Forall (λ e, is_picked e = false) es →
  selectedAgent (run es st).1 = selectedAgent st
  ∧ preferred_agent_id (messageData (run es st).1) = selectedAgent st.
Proof.
  intros Hes. cbn [messageData preferred_agent_id].
  cut (selectedAgent (run es st).1 = selectedAgent st); [done|].
  revert st. induction Hes as [|e es He _ IH]; intros st; [done|].
  cbn [run]. pose proof (selectedAgent_step e st He) as Hstep.
  specialize (IH (step e st).1).
  destruct (step e st) as [st1 out1]. cbn [fst] in *.
  destruct (run es st1) as [st2 out2]. cbn [fst] in *. congruence.
Qed.

Lemma chosen_agent_survives_witness :
  selectedAgent (run [Send clock0; HttpOk reply0; Cleared] Turns.picked_inventory).1
  = Some "inventory".
Proof.
  refine (proj1 (chosen_agent_survives [Send clock0; HttpOk reply0; Cleared]
                   Turns.picked_inventory _)).
  repeat constructor.
Defined.

Lemma isTyping_step (e : Event) (st : State) :
  settles e = false → isTyping st = true → isTyping (step e st).1 = true.
Proof.
  destruct e; cbn [settles]; try discriminate; intros He Ht; try exact Ht.
  - cbn [step]. unfold handleSendMessage.
    by destruct (truthy_str (trim (currentMessage st))).
  - cbn [step fst]. unfold onmessage. rewrite He. by destruct (_ && _).
Qed.

(** X13. Once the typing indicator is on it stays on, and the send button
    stays disabled, until an HTTP reply, an HTTP failure or a socket event
    of type ['message'] arrives: neither an ['error'] event on the socket,
    nor the closing of the socket, nor loading or clearing a conversation
    turns it off. *)
Theorem typing_waits_for_a_reply (es : list Event) (st : State) :
  isTyping st = true →
  Forall (λ e, settles e = false) es →
  isTyping (run es st).1 = true ∧ send_disabled (run es st).1 = true.
Proof.
  intros Ht Hes.
  cut (isTyping (run es st).1 = true).
  { intros H. split; [done|]. unfold send_disabled. rewrite H. apply orb_true_r. }
  revert st Ht. induction Hes as [|e es He _ IH]; intros st Ht; [done|].
  cbn [run]. pose proof (isTyping_step e st He Ht) as Hstep.
  specialize (IH (step e st).1 Hstep).
  destruct (step e st) as [st1 out1]. cbn [fst] in *.
  by destruct (run es st1) as [st2 out2].
Qed.

Lemma typing_waits_for_a_reply_witness :
  isTyping (run [WsReceived clock0 pushed_error; WsClosed; Cleared]
              (handleSendMessage clock0 (onopen socket0 typed_hi)).1).1 = true.
Proof.
  refine (proj1 (typing_waits_for_a_reply
                   [WsReceived clock0 pushed_error; WsClosed; Cleared]
                   (handleSendMessage clock0 (onopen socket0 typed_hi)).1 _ _)).
  - reflexivity.
  - repeat constructor.
Defined.

(** X14. Enter without Shift sends, and is the only key that does; it
    sends even while the typing indicator is on, when the send button is
    disabled. *)
Theorem enter_sends_while_typing (e : KeyboardEvent) (clock : Clock) (st : State) :
  trim (currentMessage st) ≠ [] →
  isTyping st = true →
  send_disabled st = true
  ∧ (key e = "Enter" → shiftKey e = false →
       handleKeyPress e clock st = (handleSendMessage clock st, true)
       ∧ length (requests (handleSendMessage clock st).2) = 1
       ∧ messages (handleSendMessage clock st).1
         = messages st ++ [userMessage clock st])
  ∧ (key e ≠ "Enter" ∨ shiftKey e = true →
       handleKeyPress e clock st = ((st, []), false)).
Proof.
  intros Hne Ht.
  assert (Hs : truthy_str (trim (currentMessage st)) = true)
    by (destruct (trim (currentMessage st)); done).
  split; [unfold send_disabled; rewrite Ht; apply orb_true_r|]. split.
  - intros Hk Hshift. unfold handleKeyPress. rewrite Hk, Hshift. cbn [negb andb].
    split; [done|]. unfold handleSendMessage. rewrite Hs. cbn [negb fst snd].
    split; [|done]. by destruct (ws_open (ws st)).
  - intros Hother. unfold handleKeyPress.
    destruct Hother as [Hk|Hshift].
    + apply String.eqb_neq in Hk. by rewrite Hk.
    + rewrite Hshift. by rewrite andb_false_r.
Qed.

Lemma enter_sends_while_typing_witness :
  handleKeyPress {| key := "Enter"; shiftKey := false |} clock0
    (setIsTyping true typed_hi)
  = (handleSendMessage clock0 (setIsTyping true typed_hi), true).
Proof.
  refine (proj1 (proj1 (proj2 (enter_sends_while_typing
            {| key := "Enter"; shiftKey := false |} clock0
            (setIsTyping true typed_hi) _ _)) eq_refl eq_refl)).
  - discriminate.
  - reflexivity.
Defined.

(** X15. The picker shows every agent once, in the order received, and
    the ones that can be chosen are exactly the active ones, in that
    order. *)
Theorem picker_offers_the_active_agents (agents : list Agent) :
  value <$> agent_options agents = agent_ident <$> agents
  ∧ selectable agents
    = agent_ident <$> filter (λ a, is_active a = true) agents.
Proof.
  unfold selectable, agent_options. split.
  - induction agents as [|a agents IH]; [done|]. cbn. by f_equal.
  - induction agents as [|a agents IH]; [done|].
    cbn [map]. rewrite !filter_cons. cbn [disabled].
    destruct (is_active a) eqn:Ha; cbn [negb].
    + rewrite decide_True by done. rewrite decide_True by done.
      cbn. by f_equal.
    + rewrite decide_False by done. rewrite decide_False by done. done.
Qed.

End ChatMoreProps.

(** ** More on the streaming parser *)

Section StreamMoreProps.
Import Api StreamText EventStream.
Context `{JSONParser}.

(** The read loop on chunks followed by further reads. *)
Lemma read_loop_then (chunks : list (list Byte.byte)) (tail : list Read)
    (d : TextDecoder) (pre : jsstr) (calls : list json) :
  done_seen (payloads (complete_lines pre)) = false →
  calls = chunk_of <$> until_done (payloads (complete_lines pre)) →
  read_loop ((Value <$> chunks) ++ tail) d (remainder pre) calls
  = if done_seen (payloads (complete_lines (pre ++ (decode d (concat chunks)).2)))
    then {| onMessage_calls :=
              chunk_of <$> until_done
                (payloads (complete_lines (pre ++ (decode d (concat chunks)).2)));
            settled := Resolved |}
    else read_loop tail (decode d (concat chunks)).1
           (remainder (pre ++ (decode d (concat chunks)).2))
           (chunk_of <$> until_done
              (payloads (complete_lines (pre ++ (decode d (concat chunks)).2)))).
Proof.
  revert d pre calls.
  induction chunks as [|value chunks IH]; intros d pre calls Hgo Hcalls.
  - cbn [fmap list_fmap app concat decode fst snd]. by rewrite app_nil_r, Hgo, Hcalls.
  - cbn [fmap list_fmap read_loop concat app]. rewrite decode_app.
    destruct (decode d value) as [d' text] eqn:Hdec. cbn [fst snd].
    unfold pop.
    change (removelast (split_nl (remainder pre ++ text)))
      with (complete_lines (remainder pre ++ text)).
    change (default [] (last (split_nl (remainder pre ++ text))))
      with (remainder (remainder pre ++ text)).
    rewrite for_lines_payloads, <- remainder_app.
    assert (Hpre : payloads (complete_lines (pre ++ text))
                   = payloads (complete_lines pre)
                     ++ payloads (complete_lines (remainder pre ++ text)))
      by (by rewrite complete_lines_app, payloads_app).
    assert (Hcalls' : calls ++ (chunk_of <$> until_done
                         (payloads (complete_lines (remainder pre ++ text))))
                      = chunk_of <$> until_done (payloads (complete_lines (pre ++ text)))).
    { rewrite Hpre, until_done_app, Hgo, fmap_app. by rewrite Hcalls. }
    rewrite Hcalls'. rewrite !(app_assoc pre text).
    destruct (done_seen (payloads (complete_lines (remainder pre ++ text)))) eqn:Hfin.
    + assert (Hdone : done_seen (payloads (complete_lines (pre ++ text))) = true)
        by (by rewrite Hpre, done_seen_app, Hfin, orb_true_r).
      rewrite (complete_lines_app (pre ++ text)), payloads_app.
      rewrite done_seen_app, Hdone. cbn [orb].
      by rewrite until_done_app, Hdone, app_nil_r.
    + apply (IH d' (pre ++ text)); [|done].
      by rewrite Hpre, done_seen_app, Hgo, Hfin.
Qed.

(** X16. When a read fails in mid-stream, the promise is rejected with
    that error and what had been delivered stays delivered, in order;
    but if the terminal marker had been read before, the stream has
    already resolved and the failure is never seen. *)
Theorem read_failure_keeps_deliveries (chunks : list (list Byte.byte))
    (e : string) (rest : list Read) :
  stream (broken_response chunks e rest)
  = if done_seen (payloads (complete_lines (text_of chunks)))
    then stream (response_of chunks)
    else {| onMessage_calls := onMessage_calls (stream (response_of chunks));
            settled := Rejected (Thrown e) |}.
Proof.
  rewrite stream_text. unfold stream, broken_response, text_of.
  cbn [ok body negb onMessage_calls].
  change (read_loop ((Value <$> chunks) ++ ReadError e :: rest) new_TextDecoder [] [])
    with (read_loop ((Value <$> chunks) ++ ReadError e :: rest) new_TextDecoder
            (remainder []) []).
  rewrite (read_loop_then chunks (ReadError e :: rest) new_TextDecoder [] [])
    by reflexivity.
  cbn [app]. by destruct (done_seen _).
Qed.

(** X17. Lines that do not begin with [data: ] (comments, [event:] and
    [id:] fields, blank lines) have no effect on what is delivered. *)
Theorem other_lines_are_ignored (lines : list jsstr) (calls : list json) :
  for_lines lines calls
  = for_lines (filter (λ line, startsWith (lit "data: ") line = true) lines) calls.
Proof.
  rewrite !for_lines_payloads. f_equal; [f_equal; f_equal; f_equal|f_equal].
  all: induction lines as [|line lines IH]; [done|];
    rewrite filter_cons, payloads_cons; unfold payload_of at 1;
    destruct (startsWith (lit "data: ") line) eqn:Hl;
    [rewrite decide_True by done; rewrite payloads_cons; unfold payload_of at 1;
     rewrite Hl; by f_equal
    |by rewrite decide_False by (by intros ?)].
Qed.

Lemma decode_ascii (p : list Byte.byte) (d : TextDecoder) :
  decoder d = utf8_init →
  Forall (λ b, (Byte.to_N b < 0x80)%N) p →
  (decode d p).2 = units p ∧ decoder (decode d p).1 = utf8_init.
Proof.
  intros Hd Hp. revert d Hd. induction Hp as [|b p Hb _ IH]; intros d Hd; [done|].
  cbn [decode]. unfold decode_byte. rewrite Hd.
  assert (Hstep : utf8_step utf8_init (Byte.to_N b) = (utf8_init, [Byte.to_N b])).
  { unfold utf8_step, utf8_handler. cbn [bytes_needed utf8_init].
    cbn [N.eqb]. unfold in_range.
    replace (Byte.to_N b <=? 127)%N with true by (symmetry; apply N.leb_le; lia).
    replace (0 <=? Byte.to_N b)%N with true by (symmetry; apply N.leb_le; lia).
    reflexivity. }
  rewrite Hstep. cbn [serialize].
  replace (Byte.to_N b =? 65279)%N with false by (symmetry; apply N.eqb_neq; lia).
  rewrite andb_false_r. unfold utf16.
  replace (Byte.to_N b <? 65536)%N with true by (symmetry; apply N.ltb_lt; lia).
  cbn [app].
  destruct (IH {| decoder := utf8_init; BOM_seen := true |} eq_refl) as [Ht Hd'].
  destruct (decode {| decoder := utf8_init; BOM_seen := true |} p) as [d2 out2].
  cbn [fst snd] in *. by rewrite Ht.
Qed.

Lemma split_nl_line (l rest : jsstr) :
  Forall (λ c, c ≠ 0x0A%N) l →
  split_nl (l ++ 0x0A%N :: rest) = l :: split_nl rest.
Proof.
  induction 1 as [|c l Hc _ IH]; [reflexivity|].
  cbn [app split_nl]. apply N.eqb_neq in Hc. by rewrite Hc, IH.
Qed.

Lemma complete_lines_line (l rest : jsstr) :
  Forall (λ c, c ≠ 0x0A%N) l →
  complete_lines (l ++ 0x0A%N :: rest) = l :: complete_lines rest.
Proof.
  intros Hl. unfold complete_lines. rewrite (split_nl_line l rest Hl).
  pose proof (split_nl_nonempty rest). by destruct (split_nl rest).
Qed.

Lemma startsWith_app (p s : jsstr) : startsWith p (p ++ s) = true.
Proof.
  induction p as [|x p IH]; [by destruct s|].
  cbn. by rewrite N.eqb_refl, IH.
Qed.

Lemma payloads_data_line (q rest : jsstr) :
  Forall (λ c, c ≠ 0x0A%N) q →
  payloads (complete_lines (lit "data: " ++ q ++ 0x0A%N :: rest))
  = q :: payloads (complete_lines rest).
Proof.
  intros Hq. rewrite app_assoc, complete_lines_line.
  - rewrite payloads_cons. unfold payload_of. rewrite startsWith_app.
    unfold slice. by rewrite (drop_app_length' (lit "data: ") q 6) by reflexivity.
  - apply Forall_app. split; [|done]. vm_compute. repeat constructor; discriminate.
Qed.

Lemma eqb_str_eq (a b : jsstr) : eqb_str a b = true → a = b.
Proof.
  revert b. induction a as [|x a IH]; intros [|y b]; cbn; try done.
  intros Hab. apply andb_prop in Hab as [Hxy Hab].
  apply N.eqb_eq in Hxy. by rewrite Hxy, (IH b Hab).
Qed.

Lemma units_inj (p q : list Byte.byte) : units p = units q → p = q.
Proof.
  unfold units. revert q. induction p as [|x p IH]; intros [|y q]; cbn; try done.
  intros [= Hxy Hpq]. f_equal; [|by apply IH].
  pose proof (Byte.of_to_N x) as Hx. rewrite Hxy, Byte.of_to_N in Hx. congruence.
Qed.

Lemma plain_not_done (p : list Byte.byte) : plain p → is_done (units p) = false.
Proof.
  intros [_ Hp]. unfold is_done.
  destruct (eqb_str (units p) (lit "[DONE]")) eqn:E; [|done].
  exfalso. apply Hp. apply eqb_str_eq in E. by apply units_inj.
Qed.

Lemma units_app (p q : list Byte.byte) : units (p ++ q) = units p ++ units q.
Proof. apply fmap_app. Qed.

Lemma payloads_sse (ps : list (list Byte.byte)) (rest : jsstr) :
  Forall plain ps →
  payloads (complete_lines (units (concat (sse_line <$> ps)) ++ rest))
  = (units <$> ps) ++ payloads (complete_lines rest).
Proof.
  induction 1 as [|p ps [Hp _] _ IH]; [done|].
  cbn [fmap list_fmap concat]. unfold sse_line at 1.
  rewrite !units_app, <- !app_assoc. cbn [units fmap list_fmap app].
  change (Byte.to_N <$> bytes "data: ") with (lit "data: ").
  change (Byte.to_N Byte.x0a) with 0x0A%N.
  rewrite payloads_data_line.
  - cbn [app]. f_equal. apply IH.
  - apply Forall_fmap. eapply Forall_impl; [exact Hp|]. by intros b [_ Hb].
Qed.

Lemma sse_ascii (ps : list (list Byte.byte)) :
  Forall plain ps → Forall (λ b, (Byte.to_N b < 0x80)%N) (sse ps).
Proof.
  intros Hps. unfold sse. apply Forall_app. split.
  - induction Hps as [|p ps [Hp _] _ IH]; [constructor|].
    cbn [fmap list_fmap concat]. apply Forall_app. split; [|done].
    unfold sse_line. apply Forall_app. split.
    + vm_compute. repeat constructor.
    + apply Forall_app. split.
      * eapply Forall_impl; [exact Hp|]. by intros b [Hb _].
      * vm_compute. repeat constructor.
  - vm_compute. repeat constructor.
Qed.

Lemma until_done_plain (ps : list (list Byte.byte)) (more : list jsstr) :
  Forall plain ps →
  until_done ((units <$> ps) ++ lit "[DONE]" :: more) = units <$> ps.
Proof.
  induction 1 as [|p ps Hp _ IH]; [reflexivity|].
  cbn [fmap list_fmap app until_done]. by rewrite (plain_not_done p Hp), IH.
Qed.

(** X18. An event stream written as one [data: ] line per payload and
    closed by the marker is read back exactly: whatever the chunking and
    whatever follows the marker, [onMessage] receives those payloads, each
    once and in order, and the promise resolves. *)
Theorem event_stream_round_trip (ps : list (list Byte.byte))
    (after : list Byte.byte) (chunks : list (list Byte.byte)) :
  Forall plain ps →
  concat chunks = sse ps ++ after →
  stream (response_of chunks)
  = {| onMessage_calls := chunk_of <$> (units <$> ps); settled := Resolved |}.
Proof.
  intros Hps Hbody. rewrite stream_text. f_equal. f_equal.
  unfold text_of. rewrite Hbody, decode_app. cbn [snd].
  destruct (decode_ascii (sse ps) new_TextDecoder eq_refl (sse_ascii ps Hps))
    as [Htext _].
  rewrite Htext. unfold sse. rewrite units_app, <- app_assoc.
  rewrite (payloads_sse ps _ Hps).
  unfold sse_line. rewrite !units_app, <- !app_assoc. cbn [units fmap list_fmap app].
  change (Byte.to_N <$> bytes "data: ") with (lit "data: ").
  change (Byte.to_N <$> bytes "[DONE]") with (lit "[DONE]").
  change (Byte.to_N Byte.x0a) with 0x0A%N.
  rewrite payloads_data_line by (vm_compute; repeat constructor; discriminate).
  by apply until_done_plain.
Qed.

End StreamMoreProps.

Section StreamMoreSamples.
Import Api StreamText EventStream.

Lemma event_stream_round_trip_witness :
  @stream sample_parser
    (response_of [bytes "data: a"; [Byte.x0a] ++ bytes "data: b c"; [Byte.x0a];
                  bytes "data: [DO"; bytes "NE]" ++ [Byte.x0a] ++ bytes "data: z"])
  = {| onMessage_calls := [JStr (lit "a"); JStr (lit "b c")]; settled := Resolved |}.
Proof.
  refine (@event_stream_round_trip sample_parser [bytes "a"; bytes "b c"]
            (bytes "data: z") _ _ _).
  - repeat constructor; vm_compute; try discriminate; reflexivity.
  - reflexivity.
Defined.

(** A read that fails before the marker rejects; after the marker it is
    never reached. *)
Example read_failure_samples :
  @stream sample_parser
    (broken_response [bytes "data: a" ++ [Byte.x0a]] "aborted" [])
  = {| onMessage_calls := [JStr (lit "a")]; settled := Rejected (Thrown "aborted") |}
  ∧ @stream sample_parser
      (broken_response [bytes "data: [DONE]" ++ [Byte.x0a]] "aborted" [])
    = {| onMessage_calls := []; settled := Resolved |}.
Proof. split; vm_compute; reflexivity. Qed.

End StreamMoreSamples.

(** ** The route guard and the reload of the page *)

Section AppProps.
Import AuthStore Api AuthActions App.

Lemma shown_S (matchPath : string → string → bool) (n : nat)
    (isAuthenticated : bool) (pathname : string) :
  shown matchPath (S n) isAuthenticated pathname
  = match select matchPath pathname (routes isAuthenticated) with
    | Some (Render page) => Some page
    | Some (Navigate to) => shown matchPath n isAuthenticated to
    | None => None
    end.
Proof. reflexivity. Qed.

Lemma shown_logged_out (matchPath : string → string → bool) (pathname : string) :
  (∀ p, matchPath "*" p = true) →
  matchPath "/login" "/login" = true →
  shown matchPath 1 false pathname = Some Login.
Proof.
  intros Hsplat Hlogin.
  assert (Hl : shown matchPath 0 false "/login" = Some Login).
  { cbn [shown routes negb]. unfold select. cbn [List.find path].
    by rewrite Hlogin. }
  rewrite shown_S. unfold select. cbn [routes negb List.find path].
  destruct (matchPath "/login" pathname); [done|].
  rewrite Hsplat. cbn [fmap option_fmap option_map element]. exact Hl.
Qed.

Lemma shown_logged_in (matchPath : string → string → bool) (pathname : string) :
  (∀ p, matchPath "*" p = true) →
  matchPath "/dashboard" "/dashboard" = true →
  matchPath "/" "/dashboard" = false →
  ∃ page, shown matchPath 1 true pathname = Some page ∧ page ≠ Login.
Proof.
  intros Hsplat Hdash Hroot.
  assert (Hd : shown matchPath 0 true "/dashboard" = Some Dashboard).
  { cbn [shown routes negb]. unfold select. cbn [List.find path].
    by rewrite Hroot, Hdash. }
  rewrite shown_S. unfold select. cbn [routes negb List.find path].
  destruct (matchPath "/" pathname).
  { cbn [fmap option_fmap option_map element]. rewrite Hd. by eexists. }
  repeat match goal with
         | |- context [if matchPath ?p pathname then _ else _] =>
             destruct (matchPath p pathname) eqn:?;
             [cbn [fmap option_fmap option_map element]; by eexists|]
         end.
  rewrite Hsplat in *. discriminate.
Qed.

(** X19. Without authentication every location shows the login page,
    after at most one redirection; with it, every location shows a page
    of the application, never the login page, again after at most one
    redirection, so the guard cannot loop. *)
Theorem route_guard (matchPath : string → string → bool) (pathname : string) :
  (∀ p, matchPath "*" p = true) →
  matchPath "/login" "/login" = true →
  matchPath "/dashboard" "/dashboard" = true →
  matchPath "/" "/dashboard" = false →
  shown matchPath 1 false pathname = Some Login
  ∧ (∃ page, shown matchPath 1 true pathname = Some page ∧ page ≠ Login).
Proof.
  intros Hsplat Hlogin Hdash Hroot. split.
  - by apply shown_logged_out.
  - by apply shown_logged_in.
Qed.

Lemma route_guard_witness :
  shown literal 1 false "/profile" = Some Login
  ∧ (∃ page, shown literal 1 true "/profile" = Some page ∧ page ≠ Login).
Proof.
  apply (route_guard literal "/profile"); reflexivity.
Defined.

Lemma rehydrated_set (f : AuthState → AuthState) (b : Browser) :
  rehydrated (set f b)
  = {| user := user (f (auth b)); token := token (f (auth b));
       refreshToken := refreshToken (f (auth b));
       isAuthenticated := isAuthenticated (f (auth b));
       isLoading := false |}.
Proof.
  unfold rehydrated, set, storage_name. cbn [localStorage].
  by rewrite lookup_insert_eq.
Qed.


End AppProps.

(** ** The theme store *)

Section ThemeStoreProps.
Import ThemeStore.

Lemma act_in_step (a : Action) (pg : Page) : in_step pg → in_step (act a pg).
Proof.
  intros (Hd & Hl & Hs). destruct a; cbn [act]; repeat split; try done.
Qed.

(** X21. Every action of the theme store keeps the document and the
    persisted entry in step with the store: the [data-theme] attribute
    names the current mode, [lang] the current language, and what is
    stored is the whole current state. [resetTheme] brings this about
    from any state. *)
Theorem theme_stays_in_step (l : list Action) (pg : Page) :
  in_step pg →
  in_step (acts l pg)
  ∧ (∀ pg', in_step (resetTheme pg') ∧ theme (resetTheme pg') = initialState).
Proof.
  intros Hpg. split; [|done].
  unfold acts. revert pg Hpg. induction l as [|a l IH]; intros pg Hpg; [done|].
  cbn [foldl]. apply IH. by apply act_in_step.
Qed.

Lemma theme_stays_in_step_witness :
  in_step (acts [ToggleDarkMode; SetLanguage en_US; ToggleSidebar;
                 SetPrimaryColor "#52c41a"] (resetTheme blank)).
Proof.
  refine (proj1 (theme_stays_in_step
                   [ToggleDarkMode; SetLanguage en_US; ToggleSidebar;
                    SetPrimaryColor "#52c41a"] (resetTheme blank) _)).
  repeat split.
Defined.

(** X22. On a page in step with its store, each of the three toggles
    undoes itself: toggling the dark mode, the sidebar or the compact
    mode twice gives back the same store, the same persisted entry and
    the same document. *)
Theorem toggles_undo_themselves (pg : Page) :
  in_step pg →
  toggleDarkMode (toggleDarkMode pg) = pg
  ∧ toggleSidebar (toggleSidebar pg) = pg
  ∧ toggleCompactMode (toggleCompactMode pg) = pg.
Proof.
  destruct pg as [[dark color l side compact] st dt lg sty].
  unfold in_step. cbn. intros (-> & -> & ->).
  unfold toggleDarkMode, toggleSidebar, setSidebarCollapsed, toggleCompactMode,
    set, setAttribute_data_theme. cbn.
  by rewrite !negb_involutive.
Qed.

Lemma toggles_undo_themselves_witness :
  toggleDarkMode (toggleDarkMode (resetTheme blank)) = resetTheme blank.
Proof.
  refine (proj1 (toggles_undo_themselves (resetTheme blank) _)).
  repeat split.
Defined.

End ThemeStoreProps.
